(** * RBTree.hpp: a red-black tree map, embedded and verified

    The embedding follows [src/RBTree.hpp].  A [std::unique_ptr<Node>] is a
    [tree]: [Leaf] is [nullptr] and [Node] is an owned node together with the
    two subtrees it owns.  Every node carries its own address, and the raw
    [Node* parent] back pointer is an optional address.  Nodes never move in
    memory (rotations move ownership, not objects), so the address of a node
    is fixed from its allocation to its destruction.

    Conventions.
    - Dereferencing a null pointer has no defined behaviour: the operations
      live in the [option] monad and return [None] there.
    - [std::size_t m_size] is an integer modulo [2^64].  The black heights
      that [validate_red_black_tree] computes are natural numbers: a path of
      [2^64] nodes does not fit in memory.
    - Keys are integers ([RBTree<int, std::string>] in Tests.hpp); values are
      any type.  [std::move] of a value is a copy (the standard only promises
      an unspecified moved-from value).
    - [assert] is a debug check and is not executed, except in [validate],
      whose result is exactly "no assertion fires".
    - [std::make_unique] returns an address chosen by the allocator; it is an
      argument ([fresh]) of the inserting functions. *)

From Stdlib Require Import String ZArith List Bool Lia Sorted Permutation.
Import ListNotations.
Local Open Scope Z_scope.

Set Implicit Arguments.

(** ** The option monad for partial operations *)

Definition bind {A B : Type} (m : option A) (f : A -> option B) : option B :=
  match m with
  | Some x => f x
  | None => None
  end.

Notation "x <- m ;; k" := (bind m (fun x => k))
  (at level 61, m at next level, right associativity).
Notation "' p <- m ;; k" := (bind m (fun x => match x with p => k end))
  (at level 61, p pattern, m at next level, right associativity).

(** ** Data model *)

Definition K := Z.
Definition addr := nat.
Bind Scope nat_scope with addr.

Inductive Color : Set := Red | Black.
Inductive Result : Set := Inserted | Updated | Failed.
Inductive Direction : Set := DIR_LEFT | DIR_RIGHT.

(** [!dir] *)
Definition opp (dir : Direction) : Direction :=
  match dir with
  | DIR_LEFT => DIR_RIGHT
  | DIR_RIGHT => DIR_LEFT
  end.

(** conversion [bool -> std::size_t] used to compute a [Direction] *)
Definition dir_of_bool (b : bool) : Direction :=
  if b then DIR_RIGHT else DIR_LEFT.

Definition size_max : Z := 2 ^ 64.
Definition size_incr (n : Z) : Z := (n + 1) mod size_max.
Definition size_decr (n : Z) : Z := (n - 1) mod size_max.

Definition Result_eqb (a b : Result) : bool :=
  match a, b with
  | Inserted, Inserted | Updated, Updated | Failed, Failed => true
  | _, _ => false
  end.

Definition ptr_eqb (p q : option addr) : bool :=
  match p, q with
  | None, None => true
  | Some a, Some b => Nat.eqb a b
  | _, _ => false
  end.

Section RBTree.

Variable V : Type.

Inductive tree : Type :=
| Leaf : tree
| Node (a : addr) (color : Color) (key : K) (value : V)
       (parent : option addr) (left right : tree) : tree.

Record RBTree : Type := mkRBTree { m_root : tree; m_size : Z }.

Definition empty_tree : RBTree := mkRBTree Leaf 0.

(** [unique_ptr::get()]: the address held, [None] for [nullptr] *)
Definition get (t : tree) : option addr :=
  match t with
  | Leaf => None
  | Node a _ _ _ _ _ _ => Some a
  end.

Definition is_null (t : tree) : bool :=
  match t with
  | Leaf => true
  | Node _ _ _ _ _ _ _ => false
  end.

(** [p != nullptr && p->is_red()] *)
Definition is_red (t : tree) : bool :=
  match t with
  | Node _ Red _ _ _ _ _ => true
  | _ => false
  end.

(** field accesses through a pointer; [None] on [nullptr] *)
Definition get_color (t : tree) : option Color :=
  match t with
  | Leaf => None
  | Node _ c _ _ _ _ _ => Some c
  end.

Definition get_parent (t : tree) : option (option addr) :=
  match t with
  | Leaf => None
  | Node _ _ _ _ p _ _ => Some p
  end.

Definition child (t : tree) (dir : Direction) : option tree :=
  match t with
  | Leaf => None
  | Node _ _ _ _ _ l r =>
      Some (match dir with DIR_LEFT => l | DIR_RIGHT => r end)
  end.

Definition set_color (t : tree) (c : Color) : option tree :=
  match t with
  | Leaf => None
  | Node a _ k v p l r => Some (Node a c k v p l r)
  end.

Definition set_parent (t : tree) (p : option addr) : option tree :=
  match t with
  | Leaf => None
  | Node a c k v _ l r => Some (Node a c k v p l r)
  end.

Definition set_child (t : tree) (dir : Direction) (x : tree) : option tree :=
  match t with
  | Leaf => None
  | Node a c k v p l r =>
      Some (match dir with
            | DIR_LEFT => Node a c k v p x r
            | DIR_RIGHT => Node a c k v p l x
            end)
  end.

(** [if (x != nullptr) { x->parent = p; }] *)
Definition reparent (x : tree) (p : option addr) : tree :=
  match x with
  | Leaf => Leaf
  | Node a c k v _ l r => Node a c k v p l r
  end.

(** [if (x != nullptr) ... x->color = c] under a guard that [x] is not null *)
Definition recolor (x : tree) (c : Color) : tree :=
  match x with
  | Leaf => Leaf
  | Node a _ k v p l r => Node a c k v p l r
  end.

(** ** Rotations *)

Definition single_rotation (root : tree) (dir : Direction) : option tree :=
  let odir := opp dir in
  old_parent <- get_parent root ;;
  save <- child root odir ;;
  (* Recolor *)
  old_root <- set_color root Red ;;
  save <- set_color save Black ;;
  (* Step 1: the subtree that moves under old_root *)
  moved <- child save dir ;;
  old_root <- set_child old_root odir (reparent moved (get root)) ;;
  (* Step 2: old_root becomes child(dir) of save *)
  old_root <- set_parent old_root (get save) ;;
  save <- set_child save dir old_root ;;
  (* Step 3: save becomes the new root of this subtree *)
  set_parent save old_parent.

Definition double_rotation (root : tree) (dir : Direction) : option tree :=
  c <- child root (opp dir) ;;
  c <- single_rotation c (opp dir) ;;
  root <- set_child root (opp dir) c ;;
  single_rotation root dir.

(** ** Rebalancing after insertion and removal *)

Definition insert_rebalance (root : tree) (dir : Direction) : option tree :=
  c <- child root dir ;;
  opposite_child <- child root (opp dir) ;;
  if is_red c then
    if is_red opposite_child then
      root <- set_color root Red ;;
      l <- child root DIR_LEFT ;;
      l <- set_color l Black ;;
      root <- set_child root DIR_LEFT l ;;
      r <- child root DIR_RIGHT ;;
      r <- set_color r Black ;;
      set_child root DIR_RIGHT r
    else
      grandchild <- child c dir ;;
      opposite_grandchild <- child c (opp dir) ;;
      if is_red grandchild then single_rotation root (opp dir)
      else if is_red opposite_grandchild then double_rotation root (opp dir)
      else Some root
  else Some root.

Definition remove_rebalance (root : tree) (dir : Direction)
  : option (tree * bool) :=
  s <- child root (opp dir) ;;
  (* Case 1: handle red sibling *)
  root <- (if is_red s then single_rotation root dir else Some root) ;;
  s <- child root (opp dir) ;;
  match s with
  | Leaf => Some (root, false)
  | Node _ _ _ _ _ sl sr =>
      let left_red := is_red sl in
      let right_red := is_red sr in
      if negb left_red && negb right_red then
        (* Case 2: no red children *)
        let is_done := is_red root in
        root <- set_color root Black ;;
        s <- set_color s Red ;;
        root <- set_child root (opp dir) s ;;
        Some (root, is_done)
      else
        saved_color <- get_color root ;;
        (* Case 3: one or both red children *)
        far <- child s (opp dir) ;;
        root <- (if is_red far then single_rotation root dir
                 else double_rotation root dir) ;;
        root <- set_color root saved_color ;;
        l <- child root DIR_LEFT ;;
        l <- set_color l Black ;;
        root <- set_child root DIR_LEFT l ;;
        r <- child root DIR_RIGHT ;;
        r <- set_color r Black ;;
        root <- set_child root DIR_RIGHT r ;;
        Some (root, true)
  end.

(** ** Validation *)

Definition color_is_red (c : Color) : bool :=
  match c with Red => true | Black => false end.

(** Returns the pair [(is_valid, height)] of the source.  Every path that
    fires an assertion returns [(false, 0)], and [(false, 0)] propagates to the
    root. *)
Fixpoint validate_red_black_tree (root : tree) : bool * nat :=
  match root with
  | Leaf => (true, 1%nat)
  | Node _ c k _ _ left_child right_child =>
      if color_is_red c && (is_red left_child || is_red right_child) then
        (false, 0%nat) (* Red violation *)
      else
        let '(_, left_height) := validate_red_black_tree left_child in
        let '(_, right_height) := validate_red_black_tree right_child in
        if (match left_child with
            | Leaf => false
            | Node _ _ lk _ _ _ _ => lk >=? k
            end)
           || (match right_child with
               | Leaf => false
               | Node _ _ rk _ _ _ _ => rk <=? k
               end)
        then (false, 0%nat) (* Binary tree violation *)
        else if negb (Nat.eqb left_height 0) && negb (Nat.eqb right_height 0)
                && negb (Nat.eqb left_height right_height)
        then (false, 0%nat) (* Black violation *)
        else if negb (Nat.eqb left_height 0) && negb (Nat.eqb right_height 0)
        then (true, if color_is_red c then left_height else S left_height)
        else (false, 0%nat)
  end.

(** [true] when no [assert(node->parent == expected_parent)] fires *)
Fixpoint validate_parents (node : tree) (expected_parent : option addr) : bool :=
  match node with
  | Leaf => true
  | Node a _ _ _ p l r =>
      ptr_eqb p expected_parent
      && validate_parents l (Some a)
      && validate_parents r (Some a)
  end.

Definition is_empty (t : RBTree) : bool := is_null (m_root t).
Definition size (t : RBTree) : Z := m_size t.

(** [true] when [validate()] returns without a failed assertion *)
Definition validate (t : RBTree) : bool :=
  if is_empty t then size t =? 0
  else
    negb (size t =? 0)
    && validate_parents (m_root t) None
    && (let '(is_valid, height) := validate_red_black_tree (m_root t) in
        negb (negb is_valid || Nat.eqb height 0)).

(** ** Extremal nodes *)

(** A [Node*] result is the subtree rooted at the node ([Leaf] for null). *)
Fixpoint find_min (node : tree) : tree :=
  match node with
  | Leaf => Leaf
  | Node _ _ _ _ _ l _ =>
      match l with
      | Leaf => node
      | Node _ _ _ _ _ _ _ => find_min l
      end
  end.

Fixpoint find_max (node : tree) : tree :=
  match node with
  | Leaf => Leaf
  | Node _ _ _ _ _ _ r =>
      match r with
      | Leaf => node
      | Node _ _ _ _ _ _ _ => find_max r
      end
  end.

(** ** Insertion *)

Fixpoint try_insert_key_val (fresh : addr) (parent : option addr)
    (node : tree) (key : K) (value : V) (allow_update : bool) (sz : Z)
  : option (Result * tree * Z) :=
  match node with
  | Leaf =>
      (* End of subtree; insert here. *)
      Some (Inserted, Node fresh Red key value parent Leaf Leaf, size_incr sz)
  | Node a c k v p l r =>
      if key <? k then
        '(result, l', sz') <-
          try_insert_key_val fresh (Some a) l key value allow_update sz ;;
        let node' := Node a c k v p l' r in
        if Result_eqb result Inserted then
          node'' <- insert_rebalance node' DIR_LEFT ;;
          Some (result, node'', sz')
        else Some (result, node', sz')
      else if key >? k then
        '(result, r', sz') <-
          try_insert_key_val fresh (Some a) r key value allow_update sz ;;
        let node' := Node a c k v p l r' in
        if Result_eqb result Inserted then
          node'' <- insert_rebalance node' DIR_RIGHT ;;
          Some (result, node'', sz')
        else Some (result, node', sz')
      else if allow_update then
        Some (Updated, Node a c k value p l r, sz)
      else Some (Failed, node, sz)
  end.

(** The overloads of [insert] and of [insert_or_update] differ in how key
    and value are passed (moved or copied); they share this body. *)
Definition insert_with (allow_update : bool) (fresh : addr) (t : RBTree)
    (key : K) (value : V) : option (Result * RBTree) :=
  '(result, root, sz) <-
    try_insert_key_val fresh None (m_root t) key value allow_update (m_size t) ;;
  root <- (if Result_eqb result Inserted then set_color root Black
           else Some root) ;;
  Some (result, mkRBTree root sz).

Definition insert := insert_with false.
Definition insert_or_update := insert_with true.

(** ** Removal *)

(** The last component of the result counts the calls of [remove_rebalance]
    (a ghost counter: the source has no such variable). *)
Fixpoint try_remove_key (root : tree) (is_done : bool) (key : K) (sz : Z)
  : option (tree * bool * option V * Z * nat) :=
  match root with
  | Leaf =>
      (* End of subtree; not found. *)
      Some (Leaf, true, None, sz, 0%nat)
  | Node a c k v p l r =>
      (* The statements after the test of [root->key == *key_ptr]: the
         descent into [root->child(dir)] and the fixup on the way back.
         [rk] is [root->key] and [key_ptr] the key pointed to at that point. *)
      let descend (root : tree) (rk key_ptr : K) (removed_value : option V) :=
        let dir := dir_of_bool (rk <? key_ptr) in
        '(c', is_done, result, sz, fixups) <-
          match dir with
          | DIR_LEFT => try_remove_key l is_done key_ptr sz
          | DIR_RIGHT => try_remove_key r is_done key_ptr sz
          end ;;
        root <- set_child root dir c' ;;
        '(root, is_done, fixups) <-
          (if negb is_done then
             '(root, is_done) <- remove_rebalance root dir ;;
             Some (root, is_done, S fixups)
           else Some (root, is_done, fixups)) ;;
        Some (root, is_done,
              match removed_value with
              | Some _ => removed_value
              | None => result
              end,
              sz, fixups)
      in
      if k =? key then
        if is_null l || is_null r then
          let c0 := if is_null l then r else l in
          let '(c0, is_done) :=
            if color_is_red c then (c0, true)
            else if is_red c0 then (recolor c0 Black, true)
            else (c0, is_done) in
          Some (reparent c0 p, is_done, Some v, size_decr sz, 0%nat)
        else
          match find_max l with
          | Leaf => None
          | Node _ _ sk sv _ _ _ =>
              descend (Node a c sk sv p l r) sk sk (Some v)
          end
      else descend root k key None
  end.

Definition remove (t : RBTree) (key : K) : option (option V * RBTree) :=
  '(root, _, result, sz, _) <-
    try_remove_key (m_root t) false key (m_size t) ;;
  let root :=
    match result with
    | Some _ => if is_null root then root else recolor root Black
    | None => root
    end in
  Some (result, mkRBTree root sz).

(** ** Lookup *)

Fixpoint try_find_key (node : tree) (key : K) : option V :=
  match node with
  | Leaf => None
  | Node _ _ k v _ l r =>
      if key <? k then try_find_key l key
      else if key >? k then try_find_key r key
      else Some v
  end.

Definition find (t : RBTree) (key : K) : option V := try_find_key (m_root t) key.

Definition clear (t : RBTree) : RBTree := mkRBTree Leaf 0.

(** ** Traversal *)

(** A visitor is a callable with its own state [S]; it answers [true] to
    continue and [false] to stop. *)
Section Visit.
Variable S : Type.
Variable visitor : K -> V -> S -> bool * S.

Fixpoint visit_inorder (node : tree) (s : S) : bool * S :=
  match node with
  | Leaf => (true, s)
  | Node _ _ k v _ l r =>
      let '(b, s) := visit_inorder l s in
      if negb b then (false, s)
      else
        let '(b, s) := visitor k v s in
        if negb b then (false, s)
        else visit_inorder r s
  end.

Fixpoint visit_preorder (node : tree) (s : S) : bool * S :=
  match node with
  | Leaf => (true, s)
  | Node _ _ k v _ l r =>
      let '(b, s) := visitor k v s in
      if negb b then (false, s)
      else
        let '(b, s) := visit_preorder l s in
        if negb b then (false, s)
        else visit_preorder r s
  end.

Fixpoint visit_postorder (node : tree) (s : S) : bool * S :=
  match node with
  | Leaf => (true, s)
  | Node _ _ k v _ l r =>
      let '(b, s) := visit_postorder l s in
      if negb b then (false, s)
      else
        let '(b, s) := visit_postorder r s in
        if negb b then (false, s)
        else visitor k v s
  end.

End Visit.

(** The traversal of a list of bindings with the same early exit. *)
Fixpoint visit_list (S : Type) (visitor : K -> V -> S -> bool * S)
    (l : list (K * V)) (s : S) : bool * S :=
  match l with
  | [] => (true, s)
  | (k, v) :: l' =>
      let '(b, s') := visitor k v s in
      if negb b then (false, s') else visit_list visitor l' s'
  end.

(** A visitor instrumented with the log of its calls: the key it was called
    on and its answer. *)
Definition traced (S : Type) (visitor : K -> V -> S -> bool * S)
  : K -> V -> S * list (K * bool) -> bool * (S * list (K * bool)) :=
  fun k v st =>
    let '(b, s') := visitor k v (fst st) in
    (b, (s', snd st ++ [(k, b)])).

(** ** Iteration through parent pointers *)

(** Dereference of a raw node pointer in the tree that owns the nodes:
    the node at address [a], [None] for a dangling pointer. *)
Fixpoint lookup (t : tree) (a : addr) : option tree :=
  match t with
  | Leaf => None
  | Node b _ _ _ _ l r =>
      if Nat.eqb a b then Some t
      else match lookup l a with
           | Some n => Some n
           | None => lookup r a
           end
  end.

(** The loop
    [while (node->parent != nullptr && node == node->parent->child(dir).get())
       node = node->parent;
     return node->parent;]
    of [next_node] ([dir = DIR_RIGHT]) and [prev_node] ([dir = DIR_LEFT]);
    [None] when the fuel runs out or a pointer dangles. *)
Fixpoint climb (dir : Direction) (fuel : nat) (h : tree) (node : addr)
  : option (option addr) :=
  match fuel with
  | O => None
  | Datatypes.S fuel =>
      n <- lookup h node ;;
      p <- get_parent n ;;
      match p with
      | None => Some None
      | Some pa =>
          pn <- lookup h pa ;;
          c <- child pn dir ;;
          if ptr_eqb (Some node) (get c) then climb dir fuel h pa
          else Some (Some pa)
      end
  end.

Definition next_node (fuel : nat) (h : tree) (node : option addr)
  : option (option addr) :=
  match node with
  | None => Some None
  | Some a =>
      n <- lookup h a ;;
      r <- child n DIR_RIGHT ;;
      if negb (is_null r) then Some (get (find_min r))
      else climb DIR_RIGHT fuel h a
  end.

Definition prev_node (fuel : nat) (h : tree) (node : option addr)
  : option (option addr) :=
  match node with
  | None => Some None
  | Some a =>
      n <- lookup h a ;;
      l <- child n DIR_LEFT ;;
      if negb (is_null l) then Some (get (find_max l))
      else climb DIR_LEFT fuel h a
  end.

(** [InorderIter]: the position [m_node] of an iterator of the tree [t].
    Two iterators of one container are equal when their positions are. *)
Definition iter_incr (fuel : nat) (t : RBTree) (m_node : option addr)
  : option (option addr) :=
  next_node fuel (m_root t) m_node.

Definition iter_decr (fuel : nat) (t : RBTree) (m_node : option addr)
  : option (option addr) :=
  match m_node with
  | None => Some (get (find_max (m_root t)))
  | Some _ => prev_node fuel (m_root t) m_node
  end.

(** [operator*]: the key and value of the node; [None] at the end position
    (the assertion [m_node != nullptr]) and for a dangling pointer. *)
Definition iter_deref (t : RBTree) (m_node : option addr) : option (K * V) :=
  a <- m_node ;;
  n <- lookup (m_root t) a ;;
  match n with
  | Leaf => None
  | Node _ _ k v _ _ _ => Some (k, v)
  end.

Definition begin_ (t : RBTree) : option addr := get (find_min (m_root t)).
Definition end_ (t : RBTree) : option addr := None.
Definition iter_eqb (i j : option addr) : bool := ptr_eqb i j.

(** The loop [for (auto it = first; it != end(); ++it)] that appends the
    dereferenced iterator to [out] at each turn, which is what a range-based
    [for] over the container runs from [begin()].  [steps] bounds the number
    of iterations and [fuel] each [operator++]. *)
Fixpoint range_for (steps fuel : nat) (t : RBTree) (it : option addr)
    (out : list (K * V)) : option (list (K * V)) :=
  match steps with
  | O => None
  | Datatypes.S steps =>
      if negb (iter_eqb it (end_ t)) then
        kv <- iter_deref t it ;;
        it' <- iter_incr fuel t it ;;
        range_for steps fuel t it' (out ++ [kv])
      else Some out
  end.

(** ** Abstraction of a tree and the invariants of the data model *)

(** The nodes in inorder: address, key and value. *)
Fixpoint elements (t : tree) : list (addr * K * V) :=
  match t with
  | Leaf => []
  | Node a _ k v _ l r => elements l ++ (a, k, v) :: elements r
  end.

Definition key_of (e : addr * K * V) : K := snd (fst e).
Definition addr_of (e : addr * K * V) : addr := fst (fst e).
Definition kv_of (e : addr * K * V) : K * V := (snd (fst e), snd e).

Definition keys (t : tree) : list K := map key_of (elements t).
Definition addrs (t : tree) : list addr := map addr_of (elements t).
Definition kvs (t : tree) : list (K * V) := map kv_of (elements t).

(** The bindings in preorder (root, left, right) and in postorder (left,
    right, root). *)
Fixpoint preorder (t : tree) : list (K * V) :=
  match t with
  | Leaf => []
  | Node _ _ k v _ l r => (k, v) :: preorder l ++ preorder r
  end.

Fixpoint postorder (t : tree) : list (K * V) :=
  match t with
  | Leaf => []
  | Node _ _ k v _ l r => postorder l ++ postorder r ++ [(k, v)]
  end.

(** Number of nodes reachable from the root. *)
Fixpoint count (t : tree) : nat :=
  match t with
  | Leaf => O
  | Node _ _ _ _ _ l r => Datatypes.S (count l + count r)
  end.

(** Invariant 1: binary-search-tree order. *)
Fixpoint inv_bst (t : tree) : Prop :=
  match t with
  | Leaf => True
  | Node _ _ k _ _ l r =>
      Forall (fun x => x < k) (keys l) /\ Forall (fun x => k < x) (keys r)
      /\ inv_bst l /\ inv_bst r
  end.

(** Invariant 2: no red node has a red child. *)
Fixpoint inv_red (t : tree) : Prop :=
  match t with
  | Leaf => True
  | Node _ c _ _ _ l r =>
      (c = Red -> is_red l = false /\ is_red r = false)
      /\ inv_red l /\ inv_red r
  end.

(** Invariant 3: [has_bh t n] when every path from the root of [t] to an
    empty position passes through [n] black nodes. *)
Inductive has_bh : tree -> nat -> Prop :=
| bh_leaf : has_bh Leaf O
| bh_red a k v p l r n :
    has_bh l n -> has_bh r n -> has_bh (Node a Red k v p l r) n
| bh_black a k v p l r n :
    has_bh l n -> has_bh r n -> has_bh (Node a Black k v p l r) (Datatypes.S n).

Definition inv_black_height (t : tree) : Prop := exists n, has_bh t n.

(** Invariant 4: the root, if present, is black. *)
Definition inv_root_black (t : tree) : Prop :=
  match t with
  | Leaf => True
  | Node _ c _ _ _ _ _ => c = Black
  end.

(** Invariant 5: parent references equal the structural parents. *)
Fixpoint parents_ok (t : tree) (expected : option addr) : Prop :=
  match t with
  | Leaf => True
  | Node a _ _ _ p l r =>
      p = expected /\ parents_ok l (Some a) /\ parents_ok r (Some a)
  end.

Definition inv_parents (t : tree) : Prop := parents_ok t None.

(** Invariant 6: the cached count. *)
Definition inv_size (t : RBTree) : Prop :=
  m_size t = Z.of_nat (count (m_root t)).

Definition all_invariants (t : RBTree) : Prop :=
  inv_bst (m_root t) /\ inv_red (m_root t) /\ inv_black_height (m_root t)
  /\ inv_root_black (m_root t) /\ inv_parents (m_root t) /\ inv_size t.

(** The red root of a subtree may have one red child on the way back from an
    insertion; the ancestor repairs it. *)
Definition infrared (t : tree) : Prop :=
  match t with
  | Node _ Red _ _ _ l r =>
      inv_red l /\ inv_red r /\ is_red l && is_red r = false
  | _ => False
  end.

(** What [validate_red_black_tree] compares: each child key with the key of
    its parent only. *)
Fixpoint local_order (t : tree) : Prop :=
  match t with
  | Leaf => True
  | Node _ _ k _ _ l r =>
      match l with
      | Leaf => True
      | Node _ _ lk _ _ _ _ => lk < k
      end
      /\ match r with
         | Leaf => True
         | Node _ _ rk _ _ _ _ => k < rk
         end
      /\ local_order l /\ local_order r
  end.

(** What [validate] establishes about a container. *)
Definition validate_checks (t : RBTree) : Prop :=
  (m_root t = Leaf /\ m_size t = 0)
  \/ (m_root t <> Leaf /\ m_size t <> 0
      /\ inv_parents (m_root t) /\ inv_red (m_root t)
      /\ inv_black_height (m_root t) /\ local_order (m_root t)).

(** [s] is a subtree of [t]: the node [s] is reachable from the root [t]. *)
Inductive subtree (s : tree) : tree -> Prop :=
| sub_here : subtree s s
| sub_left a c k v p l r : subtree s l -> subtree s (Node a c k v p l r)
| sub_right a c k v p l r : subtree s r -> subtree s (Node a c k v p l r).

(** Overwrite of the value stored under [key]; nothing else changes. *)
Fixpoint assign (key : K) (value : V) (t : tree) : tree :=
  match t with
  | Leaf => Leaf
  | Node a c k v p l r =>
      Node a c k (if k =? key then value else v) p
           (assign key value l) (assign key value r)
  end.

(** First binding of a key in an association list. *)
Fixpoint assoc (key : K) (l : list (K * V)) : option V :=
  match l with
  | [] => None
  | (k, v) :: l' => if k =? key then Some v else assoc key l'
  end.

(** ** Vocabulary of the specifications *)

(** What an insertion into a subtree does, on a search tree. *)
Definition insert_post (fresh : addr) (key : K) (value : V) (upd : bool)
    (t : tree) (sz : Z) (res : Result) (t' : tree) (sz' : Z) : Prop :=
  (~ In key (keys t) /\ res = Inserted /\ sz' = size_incr sz
   /\ exists pre post,
       elements t = pre ++ post
       /\ elements t' = pre ++ (fresh, key, value) :: post
       /\ Forall (fun e => key_of e < key) pre
       /\ Forall (fun e => key < key_of e) post)
  \/ (In key (keys t) /\ sz' = sz
      /\ res = (if upd then Updated else Failed)
      /\ t' = (if upd then assign key value t else t)).

(** What the removal of a matched node does to the subtree it roots: with
    at most one child the child takes its place; with two children the node
    takes over key and value of the maximum of its left subtree, and that
    node goes. *)
Definition removed_at (a : addr) (l r s' : tree) : Prop :=
  (is_null l || is_null r = true /\ elements s' = elements l ++ elements r)
  \/ (is_null l || is_null r = false
      /\ exists pa pc pk pv pp pl pre,
          find_max l = Node pa pc pk pv pp pl Leaf
          /\ elements l = pre ++ [(pa, pk, pv)]
          /\ elements s' = pre ++ (a, pk, pv) :: elements r).

(** Last element of a list. *)
Definition last_error {A : Type} (l : list A) : option A := hd_error (rev l).

(** [at_pos h u pre post d]: [u] is a subtree of [h] at depth [d]; [pre] and
    [post] are the addresses visited before and after [u] in inorder. *)
Inductive at_pos (h : tree) : tree -> list addr -> list addr -> nat -> Prop :=
| at_root : at_pos h h [] [] O
| at_left a c k v p l r pre post d :
    at_pos h (Node a c k v p l r) pre post d ->
    at_pos h l pre (a :: addrs r ++ post) (S d)
| at_right a c k v p l r pre post d :
    at_pos h (Node a c k v p l r) pre post d ->
    at_pos h r (pre ++ addrs l ++ [a]) post (S d).

(** ** Sequences of operations on a container *)

Inductive op : Type :=
| OpInsert (fresh : addr) (key : K) (value : V)
| OpInsertOrUpdate (fresh : addr) (key : K) (value : V)
| OpRemove (key : K).

Definition apply_op (t : RBTree) (o : op) : option RBTree :=
  match o with
  | OpInsert fresh key value =>
      '(_, t') <- insert fresh t key value ;; Some t'
  | OpInsertOrUpdate fresh key value =>
      '(_, t') <- insert_or_update fresh t key value ;; Some t'
  | OpRemove key =>
      '(_, t') <- remove t key ;; Some t'
  end.

Fixpoint run (ops : list op) (t : RBTree) : option RBTree :=
  match ops with
  | [] => Some t
  | o :: ops' => t' <- apply_op t o ;; run ops' t'
  end.

Definition is_insertion (o : op) : bool :=
  match o with
  | OpRemove _ => false
  | _ => true
  end.

(** The containers a client can build: from the empty one, by insertions at
    an address that no live node has, while the size counter does not wrap,
    and by removals. *)
Inductive reachable : RBTree -> Prop :=
| reach_empty : reachable empty_tree
| reach_insert t upd fresh key value res t' :
    reachable t ->
    ~ In fresh (addrs (m_root t)) ->
    m_size t < size_max - 1 ->
    insert_with upd fresh t key value = Some (res, t') ->
    reachable t'
| reach_remove t key res t' :
    reachable t -> remove t key = Some (res, t') -> reachable t'.

(** The containers built by insertions alone. *)
Inductive built_by_insertions : RBTree -> Prop :=
| built_empty : built_by_insertions empty_tree
| built_insert t upd fresh key value res t' :
    built_by_insertions t ->
    ~ In fresh (addrs (m_root t)) ->
    m_size t < size_max - 1 ->
    insert_with upd fresh t key value = Some (res, t') ->
    built_by_insertions t'.

End RBTree.

Arguments Leaf {V}.
Arguments key_of {V} e.
Arguments addr_of {V} e.
Arguments kv_of {V} e.

(** * Concrete containers *)

(** The scenario of [rbtree_tests] in Tests.hpp: keys 8, 3, 10, 1, 6, 14, 4,
    7, 13 inserted in that order; the nodes are allocated at addresses 1 to
    9. *)
Definition scenario_ops : list (op string) :=
  [ OpInsert 1 8 "a"%string; OpInsert 2 3 "b"%string; OpInsert 3 10 "c"%string;
    OpInsert 4 1 "d"%string; OpInsert 5 6 "e"%string; OpInsert 6 14 "f"%string;
    OpInsert 7 4 "g"%string; OpInsert 8 7 "h"%string; OpInsert 9 13 "i"%string ].

Definition run_or_empty (ops : list (op string)) : RBTree string :=
  match run ops (empty_tree string) with
  | Some t => t
  | None => empty_tree string
  end.

Definition scenario_tree : RBTree string :=
  Eval vm_compute in run_or_empty scenario_ops.

(** Keys 0 to 5 inserted in ascending order, then key 0 removed. *)
Definition ascending_ops : list (op string) :=
  [ OpInsert 1 0 "0"%string; OpInsert 2 1 "1"%string; OpInsert 3 2 "2"%string;
    OpInsert 4 3 "3"%string; OpInsert 5 4 "4"%string; OpInsert 6 5 "5"%string ].

Definition ascending_tree : RBTree string :=
  Eval vm_compute in run_or_empty ascending_ops.

Definition ascending_tree_less_0 : RBTree string :=
  Eval vm_compute in run_or_empty (ascending_ops ++ [OpRemove string 0]).

(** A single red node. *)
Definition red_root_tree : RBTree string :=
  mkRBTree (Node 1 Red 1 "a"%string None Leaf Leaf) 1.

(** Key 7 sits in the left subtree of key 5. *)
Definition unordered_tree : RBTree string :=
  mkRBTree
    (Node 1 Black 5 "a"%string None
       (Node 2 Black 3 "b"%string (Some 1%nat) Leaf
          (Node 4 Red 7 "d"%string (Some 2%nat) Leaf Leaf))
       (Node 3 Black 8 "c"%string (Some 1%nat) Leaf Leaf)) 4.

(** One binding, key 1. *)
Definition singleton_tree : RBTree string :=
  mkRBTree (Node 1 Black 1 "a"%string None Leaf Leaf) 1.

(** Subtrees in the configurations of the fixups: an empty left place one
    black node short, beside a black sibling with a red far child; a black
    node whose red left child has a red left child; a black node with a
    single, red, child. *)
Definition deficit_tree : tree string :=
  Node 1 Black 5 "a"%string None Leaf
    (Node 2 Black 8 "b"%string (Some 1%nat) Leaf
       (Node 3 Red 9 "c"%string (Some 2%nat) Leaf Leaf)).

Definition red_red_tree : tree string :=
  Node 1 Black 5 "a"%string None
    (Node 2 Red 3 "b"%string (Some 1%nat)
       (Node 3 Red 1 "c"%string (Some 2%nat) Leaf Leaf) Leaf)
    Leaf.

Definition one_child_tree : tree string :=
  Node 1 Black 5 "a"%string (Some 7%nat)
    (Node 2 Red 3 "b"%string (Some 1%nat) Leaf Leaf) Leaf.

(** * Proofs *)

Unset Implicit Arguments.

Ltac break_match :=
  match goal with
  | |- context [match ?x with _ => _ end] => is_var x; destruct x
  end.

Ltac list_norm :=
  repeat (progress (cbn; rewrite <- ?app_assoc, <- ?app_comm_cons)).

Ltac unfold_ptr :=
  unfold bind, is_red, is_null, set_color, set_parent, set_child, child,
    get_color, get_parent, get, reparent, recolor, color_is_red in *.

Ltac inv H := inversion H; subst; clear H.

Section Proofs.

Variable V : Type.
Implicit Types (t l r root h u : tree V) (dir : Direction).


(** ** The operations on a search tree *)

(** *** Rebalancing never fails and keeps the inorder sequence *)

Lemma elements_reparent t p : elements (reparent t p) = elements t.
Proof. destruct t; reflexivity. Qed.

Lemma elements_recolor t c : elements (recolor t c) = elements t.
Proof. destruct t; reflexivity. Qed.

Lemma insert_rebalance_total root dir :
  is_null root = false ->
  exists t', insert_rebalance root dir = Some t' /\ is_null t' = false
    /\ elements t' = elements root.
Proof.
  intros Hn. destruct root as [|a c k v p l r]; [discriminate|].
  unfold insert_rebalance, double_rotation, single_rotation.
  destruct dir; unfold_ptr; cbn;
  repeat (break_match; cbn);
  eexists; (split; [reflexivity|]); split; auto;
  list_norm; reflexivity.
Qed.

Lemma remove_rebalance_total root dir :
  is_null root = false ->
  exists t' d, remove_rebalance root dir = Some (t', d) /\ is_null t' = false
    /\ elements t' = elements root.
Proof.
  intros Hn. destruct root as [|a c k v p l r]; [discriminate|].
  unfold remove_rebalance, double_rotation, single_rotation.
  destruct dir; unfold_ptr; cbn;
  repeat (break_match; cbn);
  do 2 eexists; (split; [reflexivity|]); split; auto;
  list_norm; reflexivity.
Qed.


(** *** Lists of keys *)

Lemma sorted_app_iff (l1 l2 : list Z) (x : Z) :
  StronglySorted Z.lt (l1 ++ x :: l2) <->
  StronglySorted Z.lt l1 /\ StronglySorted Z.lt l2
  /\ Forall (fun y => y < x) l1 /\ Forall (fun y => x < y) l2.
Proof.
  induction l1 as [|y l1 IH]; simpl.
  - split.
    + intros H. inv H. repeat split; auto; constructor.
    + intros (_ & H2 & _ & H4). constructor; auto.
  - split.
    + intros H. inv H. apply IH in H2. destruct H2 as (A & B & C & D).
      apply Forall_app in H3. destruct H3 as [E F]. inv F.
      repeat split; auto; constructor; auto.
    + intros (A & B & C & D). inv A. inv C.
      constructor.
      * apply IH. repeat split; auto.
      * apply Forall_app. split; auto. constructor; auto.
        eapply Forall_impl; [|exact D]. simpl. intros. lia.
Qed.

Lemma sorted_app (l1 l2 : list Z) :
  StronglySorted Z.lt (l1 ++ l2) <->
  StronglySorted Z.lt l1 /\ StronglySorted Z.lt l2
  /\ Forall (fun y => Forall (fun z => y < z) l2) l1.
Proof.
  induction l1 as [|y l1 IH]; simpl.
  - split; [intros; repeat split; auto; constructor | tauto].
  - split.
    + intros H. inv H. apply IH in H2. destruct H2 as (A & B & C).
      apply Forall_app in H3. destruct H3 as [E F].
      repeat split; auto; constructor; auto.
    + intros (A & B & C). inv A. inv C. constructor.
      * apply IH. auto.
      * apply Forall_app. auto.
Qed.

Lemma keys_node a c k (v : V) p l r :
  keys (Node a c k v p l r) = keys l ++ k :: keys r.
Proof. unfold keys. simpl. rewrite map_app. reflexivity. Qed.

Lemma kvs_node a c k (v : V) p l r :
  kvs (Node a c k v p l r) = kvs l ++ (k, v) :: kvs r.
Proof. unfold kvs. simpl. rewrite map_app. reflexivity. Qed.

Lemma addrs_node a c k (v : V) p l r :
  addrs (Node a c k v p l r) = addrs l ++ a :: addrs r.
Proof. unfold addrs. simpl. rewrite map_app. reflexivity. Qed.

Lemma keys_kvs t : keys t = map fst (kvs t).
Proof.
  unfold keys, kvs. rewrite map_map. apply map_ext. intros [[a k] v]. reflexivity.
Qed.

Lemma inv_bst_sorted t : inv_bst t <-> StronglySorted Z.lt (keys t).
Proof.
  induction t as [|a c k v p l IHl r IHr].
  - simpl. split; auto. intros _. constructor.
  - rewrite keys_node, sorted_app_iff. simpl. rewrite IHl, IHr. tauto.
Qed.

(** *** Association lists *)

Lemma assoc_app key (l1 l2 : list (K * V)) :
  assoc key (l1 ++ l2) =
  match assoc key l1 with Some v => Some v | None => assoc key l2 end.
Proof.
  induction l1 as [|[k v] l1 IH]; simpl; auto.
  destruct (k =? key); auto.
Qed.

Lemma assoc_none key (l : list (K * V)) :
  assoc key l = None <-> ~ In key (map fst l).
Proof.
  induction l as [|[k v] l IH]; simpl.
  - tauto.
  - destruct (Z.eqb_spec k key).
    + split; [discriminate | intros H; exfalso; apply H; auto].
    + rewrite IH. tauto.
Qed.

Lemma assoc_in key (l : list (K * V)) :
  In key (map fst l) -> exists v, assoc key l = Some v.
Proof.
  intros H. destruct (assoc key l) eqn:E; eauto.
  apply assoc_none in E. contradiction.
Qed.

Lemma find_assoc t key :
  inv_bst t -> try_find_key t key = assoc key (kvs t).
Proof.
  induction t as [|a c k v p l IHl r IHr]; simpl; auto.
  intros (Hl & Hr & Bl & Br).
  rewrite kvs_node, assoc_app. simpl.
  destruct (Z.ltb_spec key k).
  - rewrite IHl by auto.
    destruct (assoc key (kvs l)) eqn:E; auto.
    destruct (Z.eqb_spec k key); [lia|].
    symmetry. apply assoc_none. rewrite <- keys_kvs.
    intros Hin. rewrite Forall_forall in Hr. apply Hr in Hin. lia.
  - assert (E : assoc key (kvs l) = None).
    { apply assoc_none. rewrite <- keys_kvs.
      intros Hin. rewrite Forall_forall in Hl. apply Hl in Hin. lia. }
    rewrite E.
    destruct (Z.gtb_spec key k).
    + destruct (Z.eqb_spec k key); [lia|]. auto.
    + destruct (Z.eqb_spec k key); [auto|lia].
Qed.

Lemma assign_absent key value t :
  ~ In key (keys t) -> assign key value t = t.
Proof.
  induction t as [|a c k v p l IHl r IHr]; simpl; auto.
  rewrite keys_node. intros H.
  rewrite IHl, IHr.
  - destruct (Z.eqb_spec k key); auto.
    exfalso. apply H. apply in_or_app. right. left. auto.
  - intros X. apply H. apply in_or_app. right. right. auto.
  - intros X. apply H. apply in_or_app. auto.
Qed.

(** *** Insertion below a node *)

Lemma Forall_keys (P : Z -> Prop) t :
  Forall P (keys t) <-> Forall (fun e => P (key_of e)) (elements t).
Proof. unfold keys. rewrite Forall_map. tauto. Qed.

Lemma try_insert_spec t :
  inv_bst t ->
  forall fresh parent key value upd sz,
  exists res t' sz',
    try_insert_key_val fresh parent t key value upd sz = Some (res, t', sz')
    /\ is_null t' = false
    /\ insert_post fresh key value upd t sz res t' sz'.
Proof.
  induction t as [|a c k v p l IHl r IHr]; intros B fresh parent key value upd sz.
  - simpl. do 3 eexists. split; [reflexivity|]. split; auto.
    left. repeat split; auto. exists [], []. repeat split; auto.
  - destruct B as (Hl & Hr & Bl & Br). simpl.
    destruct (Z.ltb_spec key k) as [Hlt|Hge].
    + destruct (IHl Bl fresh (Some a) key value upd sz)
        as (res & l' & sz' & E & N & P).
      rewrite E. simpl.
      destruct P as [(Nin & -> & -> & pre & post & E1 & E2 & F1 & F2)
                    |(Hin & -> & -> & ->)].
      * simpl.
        destruct (insert_rebalance_total (Node a c k v p l' r) DIR_LEFT eq_refl)
          as (t'' & R & N' & E').
        rewrite R. simpl. do 3 eexists. split; [reflexivity|]. split; auto.
        left. split; [|split; [auto|split; [auto|]]].
        { rewrite keys_node. intros X. apply in_app_or in X.
          destruct X as [X|[X|X]]; auto; try lia.
          rewrite Forall_forall in Hr. apply Hr in X. lia. }
        exists pre, (post ++ (a, k, v) :: elements r).
        simpl. rewrite E', E1. simpl. rewrite E2. list_norm.
        repeat split; auto.
        apply Forall_app. split; auto. constructor; [exact Hlt|].
        apply Forall_keys in Hr. eapply Forall_impl; [|exact Hr].
        simpl. intros. lia.
      * assert (X : Result_eqb (if upd then Updated else Failed) Inserted = false)
          by (destruct upd; reflexivity).
        rewrite X. do 3 eexists. split; [reflexivity|]. split; auto.
        right. split; [rewrite keys_node; apply in_or_app; auto|].
        repeat split; auto.
        destruct upd; auto. simpl.
        destruct (Z.eqb_spec k key); [lia|].
        rewrite (assign_absent key value r); auto.
        intros Y. rewrite Forall_forall in Hr. apply Hr in Y. lia.
    + destruct (Z.gtb_spec key k) as [Hgt|Hle].
      * destruct (IHr Br fresh (Some a) key value upd sz)
          as (res & r' & sz' & E & N & P).
        rewrite E. simpl.
        destruct P as [(Nin & -> & -> & pre & post & E1 & E2 & F1 & F2)
                      |(Hin & -> & -> & ->)].
        -- simpl.
           destruct (insert_rebalance_total (Node a c k v p l r') DIR_RIGHT eq_refl)
             as (t'' & R & N' & E').
           rewrite R. simpl. do 3 eexists. split; [reflexivity|]. split; auto.
           left. split; [|split; [auto|split; [auto|]]].
           { rewrite keys_node. intros X. apply in_app_or in X.
             destruct X as [X|[X|X]]; auto; try lia.
             rewrite Forall_forall in Hl. apply Hl in X. lia. }
           exists (elements l ++ (a, k, v) :: pre), post.
           simpl. rewrite E', E1. simpl. rewrite E2. list_norm.
           repeat split; auto.
           apply Forall_app. split.
           ++ apply Forall_keys in Hl. eapply Forall_impl; [|exact Hl].
              simpl. intros. lia.
           ++ constructor; auto.
        -- assert (X : Result_eqb (if upd then Updated else Failed) Inserted = false)
             by (destruct upd; reflexivity).
           rewrite X. do 3 eexists. split; [reflexivity|]. split; auto.
           right. split; [rewrite keys_node; apply in_or_app; right; right; auto|].
           repeat split; auto.
           destruct upd; auto. simpl.
           destruct (Z.eqb_spec k key); [lia|].
           rewrite (assign_absent key value l); auto.
           intros Y. rewrite Forall_forall in Hl. apply Hl in Y. lia.
      * assert (key = k) by lia. subst key.
        assert (Nl : ~ In k (keys l)).
        { intros Y. rewrite Forall_forall in Hl. apply Hl in Y. lia. }
        assert (Nr : ~ In k (keys r)).
        { intros Y. rewrite Forall_forall in Hr. apply Hr in Y. lia. }
        destruct upd; do 3 eexists; (split; [reflexivity|]); (split; [reflexivity|]);
          right; (split; [rewrite keys_node; apply in_or_app; right; left; auto|]);
          repeat split; auto.
        simpl. rewrite Z.eqb_refl, !assign_absent; auto.
Qed.



(** *** Removal below a node *)

Lemma try_remove_absent t key :
  ~ In key (keys t) ->
  forall done sz, try_remove_key t done key sz = Some (t, true, None, sz, 0%nat).
Proof.
  induction t as [|a c k v p l IHl r IHr]; intros Hn done sz; simpl; auto.
  rewrite keys_node in Hn.
  assert (Nl : ~ In key (keys l)) by (intros X; apply Hn, in_or_app; auto).
  assert (Nr : ~ In key (keys r)) by (intros X; apply Hn, in_or_app; right; right; auto).
  assert (Nk : k <> key) by (intros X; apply Hn, in_or_app; right; left; auto).
  destruct (Z.eqb_spec k key); [contradiction|].
  destruct (k <? key); simpl.
  - rewrite IHr by auto. reflexivity.
  - rewrite IHl by auto. reflexivity.
Qed.

(** One frame of [try_remove_key] after the recursive call has returned. *)
Lemma remove_frame root dir c' (d : bool) (n : nat) :
  is_null root = false ->
  exists root1 root2 d' n',
    set_child root dir c' = Some root1
    /\ (if negb d then
          '(x, y) <- remove_rebalance root1 dir ;; Some (x, y, S n)
        else Some (root1, d, n)) = Some (root2, d', n')
    /\ elements root2 = elements root1.
Proof.
  intros Hn. destruct root as [|a c k v p l r]; [discriminate|].
  cbn [set_child]. destruct d; cbn [negb].
  - do 4 eexists. split; [reflexivity|]. split; reflexivity.
  - match goal with |- context [Some ?x = Some _] =>
      destruct (remove_rebalance_total x dir) as (t' & d' & E & _ & El)
    end.
    { destruct dir; reflexivity. }
    do 4 eexists. split; [reflexivity|]. rewrite E. cbn [bind].
    split; [reflexivity|auto].
Qed.

Lemma find_max_node l :
  is_null l = false ->
  exists pa pc pk pv pp pl pre,
    find_max l = Node pa pc pk pv pp pl Leaf
    /\ elements l = pre ++ [(pa, pk, pv)].
Proof.
  induction l as [|a c k v p l0 IHl r0 IHr]; intros Hn; [discriminate|].
  simpl. destruct r0 as [|ra rc rk rv rp rl rr].
  - exists a, c, k, v, p, l0, (elements l0). split; reflexivity.
  - destruct IHr as (pa & pc & pk & pv & pp & pl & pre & E1 & E2); [reflexivity|].
    exists pa, pc, pk, pv, pp, pl, (elements l0 ++ (a, k, v) :: pre).
    split; [exact E1|]. rewrite E2. list_norm. reflexivity.
Qed.

Lemma try_remove_max l :
  inv_bst l ->
  forall pa pc pk pv pp pl pre,
  find_max l = Node pa pc pk pv pp pl Leaf ->
  elements l = pre ++ [(pa, pk, pv)] ->
  forall done sz,
  exists l' d n,
    try_remove_key l done pk sz = Some (l', d, Some pv, size_decr sz, n)
    /\ elements l' = pre.
Proof.
  induction l as [|a c k v p l0 IHl r0 IHr];
    intros B pa pc pk pv pp pl pre Hm He done sz; [discriminate|].
  destruct B as (Hl & Hr & Bl & Br).
  destruct r0 as [|ra rc rk rv rp rl rr].
  - simpl in Hm. inv Hm. simpl in He.
    apply app_inj_tail in He. destruct He as [He _]. subst pre.
    simpl. rewrite Z.eqb_refl, orb_true_r.
    destruct pl as [|la lc lk lv lp ll lr]; simpl.
    + destruct pc; simpl; do 3 eexists; split; reflexivity.
    + destruct pc; simpl; [|destruct lc; simpl]; do 3 eexists; split; reflexivity.
  - remember (Node ra rc rk rv rp rl rr) as r0 eqn:Er.
    assert (Hm' : find_max r0 = Node pa pc pk pv pp pl Leaf)
      by (subst r0; exact Hm).
    destruct (find_max_node r0) as (qa & qc & qk & qv & qp & ql & qpre & F1 & F2);
      [subst; reflexivity|].
    rewrite Hm' in F1.
    injection F1 as <- <- <- <- <- <-.
    assert (He' : pre = elements l0 ++ (a, k, v) :: qpre).
    { simpl in He. rewrite F2 in He.
      change (elements l0 ++ (a, k, v) :: qpre ++ [(pa, pk, pv)])
        with (elements l0 ++ ((a, k, v) :: qpre) ++ [(pa, pk, pv)]) in He.
      rewrite app_assoc in He. apply app_inj_tail in He.
      destruct He as [He _]. symmetry. exact He. }
    assert (Hk : k < pk).
    { rewrite Forall_forall in Hr. apply Hr. unfold keys. rewrite F2, map_app.
      apply in_or_app. right. left. reflexivity. }
    destruct (IHr Br _ _ _ _ _ _ _ Hm' F2 done sz) as (r' & d & n & E & El).
    cbn [try_remove_key].
    destruct (Z.eqb_spec k pk); [lia|].
    destruct (Z.ltb_spec k pk); [|lia].
    cbn [dir_of_bool]. rewrite E. cbn [bind].
    destruct (remove_frame (Node a c k v p l0 r0) DIR_RIGHT r' d n eq_refl)
      as (root1 & root2 & d' & n' & S1 & S2 & S3).
    rewrite S1. cbn [bind].
    match type of S2 with ?x = _ => match goal with |- context [bind ?y _] =>
      change y with x end end.
    rewrite S2. cbn [bind].
    do 3 eexists. split; [reflexivity|].
    rewrite S3. simpl in S1. injection S1 as <-. simpl.
    rewrite El, He'. reflexivity.
Qed.

(** *** Removal at a matched node and below an ancestor *)

Lemma subtree_elements s t :
  subtree s t -> forall x, In x (elements s) -> In x (elements t).
Proof.
  induction 1; intros x Hx; auto; simpl; apply in_or_app.
  - left. auto.
  - right. right. auto.
Qed.

Lemma subtree_keys s t :
  subtree s t -> forall x, In x (keys s) -> In x (keys t).
Proof.
  intros S x Hx. unfold keys in *. apply in_map_iff in Hx.
  destruct Hx as (e & <- & He). apply in_map. eapply subtree_elements; eauto.
Qed.

Lemma subtree_inv_bst s t : subtree s t -> inv_bst t -> inv_bst s.
Proof.
  induction 1; intros B; auto; simpl in B; tauto.
Qed.

Lemma in_keys_subtree t key :
  In key (keys t) ->
  exists a c v p l r, subtree (Node a c key v p l r) t.
Proof.
  induction t as [|a c k v p l IHl r IHr]; [intros []|].
  rewrite keys_node. intros H. apply in_app_or in H.
  destruct H as [H|[H|H]].
  - destruct (IHl H) as (a' & c' & v' & p' & l' & r' & S).
    do 6 eexists. apply sub_left. exact S.
  - subst. do 6 eexists. apply sub_here.
  - destruct (IHr H) as (a' & c' & v' & p' & l' & r' & S).
    do 6 eexists. apply sub_right. exact S.
Qed.

Lemma remove_root a c key v p l r :
  inv_bst (Node a c key v p l r) ->
  forall done sz,
  exists s' d n,
    try_remove_key (Node a c key v p l r) done key sz
      = Some (s', d, Some v, size_decr sz, n)
    /\ removed_at a l r s'.
Proof.
  intros (Hl & Hr & Bl & Br) done sz.
  cbn [try_remove_key]. rewrite Z.eqb_refl.
  destruct (is_null l || is_null r) eqn:N.
  - assert (E : elements (if is_null l then r else l) = elements l ++ elements r).
    { destruct l; simpl; auto. destruct r; simpl in N; try discriminate.
      simpl. rewrite app_nil_r. reflexivity. }
    destruct c; cbn [color_is_red].
    + do 3 eexists. split; [reflexivity|]. left. split; auto.
      rewrite elements_reparent. exact E.
    + destruct (is_red (if is_null l then r else l));
        do 3 eexists; (split; [reflexivity|]); left; (split; auto);
        rewrite elements_reparent, ?elements_recolor; exact E.
  - apply orb_false_iff in N. destruct N as [Nl Nr].
    destruct (find_max_node l Nl) as (pa & pc & pk & pv & pp & pl & pre & F1 & F2).
    rewrite F1. rewrite Z.ltb_irrefl. cbn [dir_of_bool].
    destruct (try_remove_max l Bl _ _ _ _ _ _ _ F1 F2 done sz)
      as (l' & d & n & E & El).
    rewrite E. cbn [bind].
    destruct (remove_frame (Node a c pk pv p l r) DIR_LEFT l' d n eq_refl)
      as (root1 & root2 & d' & n' & S1 & S2 & S3).
    rewrite S1. cbn [bind].
    match type of S2 with ?x = _ => match goal with |- context [bind ?y _] =>
      change y with x end end.
    rewrite S2. cbn [bind].
    do 3 eexists. split; [reflexivity|].
    right. split; [rewrite Nl, Nr; reflexivity|].
    exists pa, pc, pk, pv, pp, pl, pre. repeat split; auto.
    rewrite S3. simpl in S1. injection S1 as <-. simpl. rewrite El. reflexivity.
Qed.

Lemma remove_lift s t :
  subtree s t ->
  forall a c key v p l r,
  s = Node a c key v p l r ->
  inv_bst t ->
  forall E' sz1 done sz,
  (exists s' d0 n0,
      try_remove_key s done key sz = Some (s', d0, Some v, sz1, n0)
      /\ elements s' = E') ->
  exists t' d n pre post,
    try_remove_key t done key sz = Some (t', d, Some v, sz1, n)
    /\ elements t = pre ++ elements s ++ post
    /\ elements t' = pre ++ E' ++ post.
Proof.
  induction 1 as [|a0 c0 k0 v0 p0 l0 r0 S IH|a0 c0 k0 v0 p0 l0 r0 S IH];
    intros a c key v p l r Es B E' sz1 done sz (s' & d0 & n0 & Hs & He).
  - exists s', d0, n0, [], []. rewrite app_nil_r. simpl. rewrite app_nil_r. auto.
  - assert (Hk : In key (keys l0)).
    { eapply subtree_keys; eauto. subst s. rewrite keys_node.
      apply in_or_app. right. left. reflexivity. }
    destruct B as (Hl & Hr & Bl & Br).
    assert (key < k0) by (rewrite Forall_forall in Hl; auto).
    destruct (IH _ _ _ _ _ _ _ Es Bl E' sz1 done sz) as (l' & d & n & pre & post & E1 & E2 & E3).
    { eauto. }
    cbn [try_remove_key].
    destruct (Z.eqb_spec k0 key); [lia|].
    destruct (Z.ltb_spec k0 key); [lia|].
    cbn [dir_of_bool]. rewrite E1. cbn [bind].
    destruct (remove_frame (Node a0 c0 k0 v0 p0 l0 r0) DIR_LEFT l' d n eq_refl)
      as (root1 & root2 & d' & n' & S1 & S2 & S3).
    rewrite S1. cbn [bind].
    match type of S2 with ?x = _ => match goal with |- context [bind ?y _] =>
      change y with x end end.
    rewrite S2. cbn [bind].
    exists root2, d', n', pre, (post ++ (a0, k0, v0) :: elements r0).
    split; [reflexivity|].
    rewrite S3. simpl in S1. injection S1 as <-. simpl. rewrite E2, E3.
    list_norm. split; reflexivity.
  - assert (Hk : In key (keys r0)).
    { eapply subtree_keys; eauto. subst s. rewrite keys_node.
      apply in_or_app. right. left. reflexivity. }
    destruct B as (Hl & Hr & Bl & Br).
    assert (k0 < key) by (rewrite Forall_forall in Hr; auto).
    destruct (IH _ _ _ _ _ _ _ Es Br E' sz1 done sz) as (r' & d & n & pre & post & E1 & E2 & E3).
    { eauto. }
    cbn [try_remove_key].
    destruct (Z.eqb_spec k0 key); [lia|].
    destruct (Z.ltb_spec k0 key); [|lia].
    cbn [dir_of_bool]. rewrite E1. cbn [bind].
    destruct (remove_frame (Node a0 c0 k0 v0 p0 l0 r0) DIR_RIGHT r' d n eq_refl)
      as (root1 & root2 & d' & n' & S1 & S2 & S3).
    rewrite S1. cbn [bind].
    match type of S2 with ?x = _ => match goal with |- context [bind ?y _] =>
      change y with x end end.
    rewrite S2. cbn [bind].
    exists root2, d', n', (elements l0 ++ (a0, k0, v0) :: pre), post.
    split; [reflexivity|].
    rewrite S3. simpl in S1. injection S1 as <-. simpl. rewrite E2, E3.
    list_norm. split; reflexivity.
Qed.

(** *** Lookup in terms of the inorder sequence *)

Lemma kvs_elements t pre e post :
  elements t = pre ++ e :: post ->
  kvs t = map kv_of pre ++ kv_of e :: map kv_of post.
Proof. intros E. unfold kvs. rewrite E, map_app. reflexivity. Qed.

Lemma keys_elements t pre e post :
  elements t = pre ++ e :: post ->
  keys t = map key_of pre ++ key_of e :: map key_of post.
Proof. intros E. unfold keys. rewrite E, map_app. reflexivity. Qed.

Lemma map_fst_kv (l : list (addr * K * V)) : map fst (map kv_of l) = map key_of l.
Proof. rewrite map_map. apply map_ext. intros [[a k] v]. reflexivity. Qed.

Lemma find_at t pre a key v post :
  inv_bst t ->
  elements t = pre ++ (a, key, v) :: post ->
  try_find_key t key = Some v.
Proof.
  intros B E. rewrite find_assoc by exact B.
  rewrite (kvs_elements _ _ _ _ E), assoc_app.
  apply inv_bst_sorted in B. rewrite (keys_elements _ _ _ _ E) in B.
  apply sorted_app_iff in B. destruct B as (_ & _ & F & _).
  assert (N : assoc key (map kv_of pre) = None).
  { apply assoc_none. rewrite map_fst_kv. intros X.
    rewrite Forall_forall in F. apply F in X. unfold key_of in X. simpl in X. lia. }
  rewrite N. simpl. unfold kv_of. simpl. rewrite Z.eqb_refl. reflexivity.
Qed.

Lemma find_absent t key :
  inv_bst t -> ~ In key (keys t) -> try_find_key t key = None.
Proof.
  intros B N. rewrite find_assoc by exact B. apply assoc_none.
  rewrite <- keys_kvs. exact N.
Qed.

Lemma try_find_assign key value t k' :
  try_find_key (assign key value t) k' =
  if k' =? key then option_map (fun _ => value) (try_find_key t k')
  else try_find_key t k'.
Proof.
  induction t as [|a c k v p l IHl r IHr]; simpl.
  - destruct (k' =? key); reflexivity.
  - destruct (k' <? k) eqn:E1; [exact IHl|].
    destruct (k' >? k) eqn:E2; [exact IHr|].
    assert (k' = k).
    { destruct (Z.ltb_spec k' k); [discriminate|].
      destruct (Z.gtb_spec k' k); [discriminate|]. lia. }
    subst k'. destruct (k =? key); reflexivity.
Qed.

(** *** Size arithmetic *)

Lemma size_incr_small n : 0 <= n < size_max - 1 -> size_incr n = n + 1.
Proof. intros H. unfold size_incr. apply Z.mod_small. lia. Qed.

Lemma size_decr_small n : 0 < n < size_max -> size_decr n = n - 1.
Proof. intros H. unfold size_decr. apply Z.mod_small. lia. Qed.

(** *** The container operations on a search tree *)

Lemma sorted_insert (pre post : list Z) (key : Z) :
  StronglySorted Z.lt (pre ++ post) ->
  Forall (fun x => x < key) pre -> Forall (fun x => key < x) post ->
  StronglySorted Z.lt (pre ++ key :: post).
Proof.
  intros S F1 F2. apply sorted_app in S. destruct S as (S1 & S2 & _).
  apply sorted_app_iff. auto.
Qed.

Lemma sorted_remove (pre post : list Z) (key : Z) :
  StronglySorted Z.lt (pre ++ key :: post) ->
  StronglySorted Z.lt (pre ++ post) /\ ~ In key (pre ++ post).
Proof.
  intros S. apply sorted_app_iff in S. destruct S as (S1 & S2 & F1 & F2). split.
  - apply sorted_app. repeat split; auto.
    eapply Forall_impl; [|exact F1]. simpl. intros x Hx.
    eapply Forall_impl; [|exact F2]. simpl. intros. lia.
  - intros X. apply in_app_or in X. rewrite Forall_forall in F1, F2.
    destruct X as [X|X]; [apply F1 in X|apply F2 in X]; lia.
Qed.

Lemma keys_assign key value t : keys (assign key value t) = keys t.
Proof.
  induction t as [|a c k v p l IHl r IHr]; auto.
  simpl assign. rewrite !keys_node, IHl, IHr. reflexivity.
Qed.

Lemma insert_with_spec (T : RBTree V) :
  inv_bst (m_root T) ->
  forall upd fresh key value,
  exists res T',
    insert_with upd fresh T key value = Some (res, T')
    /\ inv_bst (m_root T')
    /\ insert_post fresh key value upd (m_root T) (m_size T) res
         (m_root T') (m_size T').
Proof.
  intros B upd fresh key value. unfold insert_with.
  destruct (try_insert_spec (m_root T) B fresh None key value upd (m_size T))
    as (res & t' & sz' & E & N & P).
  rewrite E. cbn [bind].
  destruct P as [(Nin & -> & -> & pre & post & E1 & E2 & F1 & F2)
                |(Hin & -> & -> & ->)].
  - cbn [Result_eqb]. destruct t' as [|a c k v p l r]; [discriminate|].
    cbn [set_color bind]. do 2 eexists. split; [reflexivity|].
    cbn [m_root m_size].
    assert (E3 : elements (Node a Black k v p l r) = pre ++ (fresh, key, value) :: post)
      by exact E2.
    split.
    + apply inv_bst_sorted. rewrite (keys_elements _ _ _ _ E3).
      apply sorted_insert.
      * apply inv_bst_sorted in B. unfold keys in B. rewrite E1, map_app in B. exact B.
      * rewrite Forall_map. exact F1.
      * rewrite Forall_map. exact F2.
    + left. repeat split; auto. exists pre, post. auto.
  - assert (X : Result_eqb (if upd then Updated else Failed) Inserted = false)
      by (destruct upd; reflexivity).
    rewrite X. cbn [bind]. do 2 eexists. split; [reflexivity|].
    cbn [m_root m_size]. split.
    + destruct upd; auto. apply inv_bst_sorted. rewrite keys_assign.
      apply inv_bst_sorted. exact B.
    + right. auto.
Qed.

Lemma remove_found (T : RBTree V) a c key v p l r :
  inv_bst (m_root T) ->
  subtree (Node a c key v p l r) (m_root T) ->
  exists T' s' pre post,
    remove T key = Some (Some v, T')
    /\ m_size T' = size_decr (m_size T)
    /\ removed_at a l r s'
    /\ elements (m_root T) = pre ++ (elements l ++ (a, key, v) :: elements r) ++ post
    /\ elements (m_root T') = pre ++ elements s' ++ post.
Proof.
  intros B S.
  destruct (remove_root a c key v p l r (subtree_inv_bst _ _ S B) false (m_size T))
    as (s' & d0 & n0 & Hs & Hr).
  destruct (remove_lift _ _ S a c key v p l r eq_refl B (elements s')
              (size_decr (m_size T)) false (m_size T))
    as (t' & d & n & pre & post & E1 & E2 & E3).
  { eauto. }
  unfold remove. rewrite E1. cbn [bind].
  eexists. exists s', pre, post. split; [reflexivity|].
  cbn [m_root m_size]. repeat split; auto.
  destruct (is_null t'); auto. rewrite elements_recolor. exact E3.
Qed.

Lemma removed_at_kvs a l r s' :
  removed_at a l r s' ->
  map kv_of (elements s') = map kv_of (elements l ++ elements r).
Proof.
  intros [(_ & E)|(_ & pa & pc & pk & pv & pp & pl & pre & F1 & F2 & E)];
    rewrite E; auto.
  rewrite F2. rewrite !map_app. simpl. rewrite <- app_assoc. reflexivity.
Qed.

Lemma remove_spec (T : RBTree V) key :
  inv_bst (m_root T) ->
  In key (keys (m_root T)) ->
  exists v T',
    remove T key = Some (Some v, T')
    /\ find T key = Some v
    /\ m_size T' = size_decr (m_size T)
    /\ inv_bst (m_root T')
    /\ ~ In key (keys (m_root T'))
    /\ exists kpre kpost,
        kvs (m_root T) = kpre ++ (key, v) :: kpost
        /\ kvs (m_root T') = kpre ++ kpost.
Proof.
  intros B Hin.
  destruct (in_keys_subtree _ _ Hin) as (a & c & v & p & l & r & S).
  destruct (remove_found T a c key v p l r B S)
    as (T' & s' & pre & post & E1 & E2 & E3 & E4 & E5).
  apply removed_at_kvs in E3.
  assert (K1 : kvs (m_root T) =
               (map kv_of pre ++ map kv_of (elements l)) ++ (key, v)
               :: (map kv_of (elements r) ++ map kv_of post)).
  { unfold kvs. rewrite E4. rewrite !map_app. simpl. list_norm. reflexivity. }
  assert (K2 : kvs (m_root T') =
               (map kv_of pre ++ map kv_of (elements l))
               ++ (map kv_of (elements r) ++ map kv_of post)).
  { unfold kvs. rewrite E5. rewrite !map_app, E3, map_app. list_norm. reflexivity. }
  assert (S1 : StronglySorted Z.lt (keys (m_root T))) by (apply inv_bst_sorted; exact B).
  rewrite keys_kvs, K1, map_app in S1. simpl in S1.
  apply sorted_remove in S1. destruct S1 as [S1 S2].
  rewrite <- map_app, <- K2, <- keys_kvs in S1, S2.
  exists v, T'. repeat split; auto.
  - unfold find. rewrite find_assoc by exact B. rewrite K1, assoc_app.
    assert (S3 : StronglySorted Z.lt (keys (m_root T))) by (apply inv_bst_sorted; exact B).
    rewrite keys_kvs, K1, map_app in S3. simpl in S3.
    apply sorted_app_iff in S3. destruct S3 as (_ & _ & F & _).
    match goal with |- context [assoc key ?l] =>
      assert (N : assoc key l = None) end.
    { apply assoc_none. intros X. rewrite Forall_forall in F. apply F in X. lia. }
    rewrite N. simpl. rewrite Z.eqb_refl. reflexivity.
  - apply inv_bst_sorted. exact S1.
  - eauto.
Qed.

(** *** Removal of a node with two children, frame by frame *)

Lemma remove_root_two a c key v p l r :
  inv_bst l -> is_null l = false -> is_null r = false ->
  forall pa pc pk pv pp pl pre,
  find_max l = Node pa pc pk pv pp pl Leaf ->
  elements l = pre ++ [(pa, pk, pv)] ->
  forall done sz,
  exists l' d n sroot d' n',
    try_remove_key l done pk sz = Some (l', d, Some pv, size_decr sz, n)
    /\ elements l' = pre
    /\ (if negb d then
          '(x, y) <- remove_rebalance (Node a c pk pv p l' r) DIR_LEFT ;;
          Some (x, y, S n)
        else Some (Node a c pk pv p l' r, d, n)) = Some (sroot, d', n')
    /\ try_remove_key (Node a c key v p l r) done key sz
       = Some (sroot, d', Some v, size_decr sz, n')
    /\ elements sroot = pre ++ (a, pk, pv) :: elements r.
Proof.
  intros Bl Nl Nr pa pc pk pv pp pl pre F1 F2 done sz.
  destruct (try_remove_max l Bl _ _ _ _ _ _ _ F1 F2 done sz)
    as (l' & d & n & E & El).
  destruct (remove_frame (Node a c pk pv p l r) DIR_LEFT l' d n eq_refl)
    as (root1 & root2 & d' & n' & S1 & S2 & S3).
  cbn [set_child] in S1. injection S1 as <-.
  exists l', d, n, root2, d', n'.
  split; [exact E|]. split; [exact El|]. split; [exact S2|]. split.
  - cbn [try_remove_key]. rewrite Z.eqb_refl, Nl, Nr. cbn [orb].
    rewrite F1, Z.ltb_irrefl. cbn [dir_of_bool]. rewrite E. cbn [bind set_child].
    match type of S2 with ?x = _ => match goal with |- context [bind ?y _] =>
      change y with x end end.
    rewrite S2. reflexivity.
  - rewrite S3. simpl. rewrite El. reflexivity.
Qed.

(** ** The claims about insertion, removal and lookup *)

(** C4. A key that is in no node: [remove] returns absence and the very same
    container; every frame of [try_remove_key] returns with [is_done] set, so
    that [remove_rebalance] is never called (the count of its calls is 0). *)
Theorem remove_absent_unchanged (T : RBTree V) (key : K) :
  ~ In key (keys (m_root T)) ->
  remove T key = Some (None, T)
  /\ (forall t done sz, subtree t (m_root T) ->
        try_remove_key t done key sz = Some (t, true, None, sz, 0%nat)).
Proof.
  intros N. split.
  - unfold remove. rewrite (try_remove_absent _ _ N). cbn [bind].
    destruct T; reflexivity.
  - intros t done sz S. apply try_remove_absent.
    intros X. apply N. eapply subtree_keys; eauto.
Qed.

(** C5. A key that is present in a search tree: strict [insert] returns
    [Failed] and the very same container; [insert_or_update] returns [Updated]
    and the container in which only the value under that key is overwritten
    (same nodes, shape, colors, parents and size); [find] then returns the new
    value, and what it returns for the other keys is unchanged. *)
Theorem insert_present (T : RBTree V) (fresh : addr) (key : K) (value : V) :
  inv_bst (m_root T) ->
  In key (keys (m_root T)) ->
  insert fresh T key value = Some (Failed, T)
  /\ (let T' := mkRBTree (assign key value (m_root T)) (m_size T) in
      insert_or_update fresh T key value = Some (Updated, T')
      /\ find T' key = Some value
      /\ forall k', k' <> key -> find T' k' = find T k').
Proof.
  intros B Hin. split; [|cbn zeta; split; [|split]].
  - destruct (insert_with_spec T B false fresh key value)
      as (res & T' & E & _ & [(Nin & _)|(_ & E1 & -> & E2)]); [contradiction|].
    unfold insert. rewrite E. destruct T, T'. simpl in *. subst. reflexivity.
  - destruct (insert_with_spec T B true fresh key value)
      as (res & T' & E & _ & [(Nin & _)|(_ & E1 & -> & E2)]); [contradiction|].
    unfold insert_or_update. rewrite E. destruct T'. simpl in *. subst. reflexivity.
  - unfold find. cbn [m_root]. rewrite try_find_assign, Z.eqb_refl.
    rewrite find_assoc by exact B.
    rewrite keys_kvs in Hin. destruct (assoc_in _ _ Hin) as (v0 & ->). reflexivity.
  - intros k' Hk. unfold find. cbn [m_root]. rewrite try_find_assign.
    destruct (Z.eqb_spec k' key); [contradiction|reflexivity].
Qed.

(** C7. On a search tree whose size counter cannot wrap, [insert] and
    [insert_or_update] return [Inserted] exactly when the key was absent; the
    size grows by one when the result is [Inserted] and is unchanged when it
    is [Updated] or [Failed]. *)
Theorem insert_size (T : RBTree V) (upd : bool) (fresh : addr) (key : K)
    (value : V) :
  inv_bst (m_root T) ->
  0 <= m_size T < size_max - 1 ->
  exists res T',
    insert_with upd fresh T key value = Some (res, T')
    /\ (res = Inserted <-> ~ In key (keys (m_root T)))
    /\ (res = Inserted -> m_size T' = m_size T + 1)
    /\ (res = Updated \/ res = Failed -> m_size T' = m_size T).
Proof.
  intros B Hs.
  destruct (insert_with_spec T B upd fresh key value)
    as (res & T' & E & _ & [(Nin & -> & E1 & _)|(Hin & E1 & -> & _)]);
    do 2 eexists; (split; [exact E|]).
  - rewrite E1, size_incr_small by exact Hs.
    repeat split; auto. intros [X|X]; discriminate.
  - repeat split; auto.
    + destruct upd; discriminate.
    + intros X. contradiction.
    + destruct upd; discriminate.
Qed.

(** C6, as the code has it.  On a search tree: after [insert_or_update] of
    [(key, value)], [find key] returns [value]; after strict [insert], it
    returns [value] when the key was absent (result [Inserted]) and still the
    value stored before when the key was present (result [Failed]); after
    [remove key], [find key] returns absence. *)
Theorem roundtrip (T : RBTree V) (fresh : addr) (key : K) (value : V) :
  inv_bst (m_root T) ->
  (exists res T',
      insert_or_update fresh T key value = Some (res, T')
      /\ find T' key = Some value)
  /\ (exists res T',
        insert fresh T key value = Some (res, T')
        /\ (~ In key (keys (m_root T)) ->
            res = Inserted /\ find T' key = Some value)
        /\ (In key (keys (m_root T)) ->
            res = Failed /\ find T' key = find T key))
  /\ (exists res T',
        remove T key = Some (res, T') /\ find T' key = None).
Proof.
  intros B.
  assert (Ins : forall upd res T',
             insert_with upd fresh T key value = Some (res, T') ->
             inv_bst (m_root T') ->
             insert_post fresh key value upd (m_root T) (m_size T) res
               (m_root T') (m_size T') ->
             res = Inserted -> find T' key = Some value).
  { intros upd res T' _ B' [(Nin & _ & _ & pre & post & E1 & E2 & F1 & F2)
                          |(Hin & _ & -> & _)] R.
    - unfold find. eapply find_at; eauto.
    - destruct upd; discriminate. }
  split; [|split].
  - destruct (insert_with_spec T B true fresh key value)
      as (res & T' & E & B' & P).
    exists res, T'. split; [exact E|].
    assert (P' := P).
    destruct P as [(Nin & R & _)|(Hin & _ & _ & E2)].
    + eapply Ins; eauto.
    + unfold find. rewrite E2, try_find_assign, Z.eqb_refl.
      rewrite find_assoc by exact B.
      rewrite keys_kvs in Hin. destruct (assoc_in _ _ Hin) as (v0 & ->). reflexivity.
  - destruct (insert_with_spec T B false fresh key value)
      as (res & T' & E & B' & P).
    exists res, T'. split; [exact E|].
    assert (P' := P).
    destruct P as [(Nin & R & _)|(Hin & _ & R & E2)].
    + split; [|intros X; contradiction].
      intros _. split; [exact R|]. eapply Ins; eauto.
    + split; [intros X; contradiction|].
      intros _. split; [exact R|]. unfold find. rewrite E2. reflexivity.
  - destruct (in_dec Z.eq_dec key (keys (m_root T))) as [Hin|Nin].
    + destruct (remove_spec T key B Hin) as (v & T' & E & _ & _ & B' & N' & _).
      exists (Some v), T'. split; [exact E|]. apply find_absent; auto.
    + exists None, T. split.
      * unfold remove. rewrite (try_remove_absent _ _ Nin). cbn [bind].
        destruct T; reflexivity.
      * apply find_absent; auto.
Qed.

(** C3. In a search tree, removing the key of a node with two children:
    the maximum node of its left subtree is found; the recursive call of
    [try_remove_key] on the left subtree, with that node's key, deletes that
    node and decrements the size once; the matched node is left with the key
    and value of the deleted one; [remove] returns the value that was mapped
    to the key, the size is one less, and in the inorder sequence the
    predecessor's entry is gone while the matched node carries its data. *)
Theorem remove_two_children (T : RBTree V) a c key v p l r :
  inv_bst (m_root T) ->
  subtree (Node a c key v p l r) (m_root T) ->
  is_null l = false -> is_null r = false ->
  0 < m_size T < size_max ->
  exists pa pc pk pv pp pl,
    find_max l = Node pa pc pk pv pp pl Leaf
    /\ (forall done sz,
        exists l' d n sroot d' n',
          try_remove_key l done pk sz = Some (l', d, Some pv, size_decr sz, n)
          /\ elements l' = removelast (elements l)
          /\ (if negb d then
                '(x, y) <- remove_rebalance (Node a c pk pv p l' r) DIR_LEFT ;;
                Some (x, y, S n)
              else Some (Node a c pk pv p l' r, d, n)) = Some (sroot, d', n')
          /\ try_remove_key (Node a c key v p l r) done key sz
             = Some (sroot, d', Some v, size_decr sz, n'))
    /\ exists T',
        remove T key = Some (Some v, T')
        /\ find T key = Some v
        /\ m_size T' = m_size T - 1
        /\ exists pre post,
            elements (m_root T) = pre ++ (pa, pk, pv) :: (a, key, v) :: post
            /\ elements (m_root T') = pre ++ (a, pk, pv) :: post.
Proof.
  intros B S Nl Nr Hs.
  destruct (find_max_node l Nl) as (pa & pc & pk & pv & pp & pl & lpre & F1 & F2).
  exists pa, pc, pk, pv, pp, pl. split; [exact F1|].
  assert (Bs := subtree_inv_bst _ _ S B).
  assert (Bl : inv_bst l) by (simpl in Bs; tauto).
  split.
  - intros done sz.
    destruct (remove_root_two a c key v p l r Bl Nl Nr _ _ _ _ _ _ _ F1 F2 done sz)
      as (l' & d & n & sroot & d' & n' & E1 & E2 & E3 & E4 & _).
    exists l', d, n, sroot, d', n'. repeat split; auto.
    rewrite F2, removelast_last. exact E2.
  - destruct (remove_found T a c key v p l r B S)
      as (T' & s' & pre & post & E1 & E2 & E3 & E4 & E5).
    exists T'. split; [exact E1|].
    assert (E6 : elements (m_root T)
                 = (pre ++ lpre) ++ (pa, pk, pv) :: (a, key, v) :: elements r ++ post).
    { rewrite E4, F2. list_norm. reflexivity. }
    split; [|split].
    + unfold find. apply (find_at _ ((pre ++ lpre) ++ [(pa, pk, pv)]) a key v
                                  (elements r ++ post) B).
      rewrite E6. list_norm. reflexivity.
    + rewrite E2. apply size_decr_small. exact Hs.
    + exists (pre ++ lpre), (elements r ++ post). split; [exact E6|].
      destruct E3 as [(X & _)|(_ & qa & qc & qk & qv & qp & ql & qpre & G1 & G2 & G3)].
      * rewrite Nl, Nr in X. discriminate.
      * rewrite F1 in G1. injection G1 as <- <- <- <- <- <-.
        rewrite F2 in G2. apply app_inj_tail in G2. destruct G2 as [<- _].
        rewrite E5, G3. list_norm. reflexivity.
Qed.

(** ** Iteration *)

(** *** Positions in the tree *)

Lemma last_error_app {A : Type} (l : list A) (x : A) :
  last_error (l ++ [x]) = Some x.
Proof. unfold last_error. rewrite rev_app_distr. reflexivity. Qed.

Lemma hd_error_app {A : Type} (l1 l2 : list A) :
  l1 <> [] -> hd_error (l1 ++ l2) = hd_error l1.
Proof. destruct l1; [congruence|reflexivity]. Qed.

Lemma last_error_app_r {A : Type} (l1 l2 : list A) :
  l2 <> [] -> last_error (l1 ++ l2) = last_error l2.
Proof.
  intros H. unfold last_error. rewrite rev_app_distr. apply hd_error_app.
  intros X. apply H. apply (f_equal (@rev A)) in X. rewrite rev_involutive in X.
  exact X.
Qed.

Lemma addrs_nonempty t : is_null t = false -> addrs t <> [].
Proof.
  destruct t; [discriminate|]. intros _. rewrite addrs_node.
  intros X. apply app_eq_nil in X. destruct X as [_ X]. discriminate.
Qed.

Lemma in_addrs_root a c k (v : V) p l r : In a (addrs (Node a c k v p l r)).
Proof. rewrite addrs_node. apply in_or_app. right. left. reflexivity. Qed.

Lemma find_min_head t : get (find_min t) = hd_error (addrs t).
Proof.
  induction t as [|a c k v p l IHl r IHr]; [reflexivity|].
  rewrite addrs_node. simpl. destruct l as [|la lc lk lv lp ll lr].
  - reflexivity.
  - rewrite IHl. rewrite hd_error_app; [reflexivity|].
    apply addrs_nonempty. reflexivity.
Qed.

Lemma find_max_last t : get (find_max t) = last_error (addrs t).
Proof.
  induction t as [|a c k v p l IHl r IHr]; [reflexivity|].
  rewrite addrs_node. simpl. destruct r as [|ra rc rk rv rp rl rr].
  - change (addrs l ++ [a]) with (addrs l ++ [a]).
    cbn [addrs elements map]. rewrite last_error_app. reflexivity.
  - rewrite IHr.
    change (addrs l ++ a :: addrs (Node ra rc rk rv rp rl rr))
      with (addrs l ++ (a :: addrs (Node ra rc rk rv rp rl rr))).
    rewrite last_error_app_r by discriminate.
    change (a :: addrs (Node ra rc rk rv rp rl rr))
      with ([a] ++ addrs (Node ra rc rk rv rp rl rr)).
    rewrite last_error_app_r; [reflexivity|].
    apply addrs_nonempty. reflexivity.
Qed.

Lemma find_min_null t : is_null (find_min t) = is_null t.
Proof.
  induction t as [|a c k v p l IHl r IHr]; [reflexivity|].
  simpl. destruct l; [reflexivity|]. exact IHl.
Qed.

Lemma subtree_addrs s t :
  subtree s t -> forall x, In x (addrs s) -> In x (addrs t).
Proof.
  intros S x Hx. unfold addrs in *. apply in_map_iff in Hx.
  destruct Hx as (e & <- & He). apply in_map. eapply subtree_elements; eauto.
Qed.

Lemma in_addrs_subtree t a :
  In a (addrs t) -> exists c k v p l r, subtree (Node a c k v p l r) t.
Proof.
  induction t as [|a0 c k v p l IHl r IHr]; [intros []|].
  rewrite addrs_node. intros H. apply in_app_or in H.
  destruct H as [H|[H|H]].
  - destruct (IHl H) as (c' & k' & v' & p' & l' & r' & S).
    do 6 eexists. apply sub_left. exact S.
  - subst. do 6 eexists. apply sub_here.
  - destruct (IHr H) as (c' & k' & v' & p' & l' & r' & S).
    do 6 eexists. apply sub_right. exact S.
Qed.

Lemma lookup_none t a : ~ In a (addrs t) -> lookup t a = None.
Proof.
  induction t as [|a0 c k v p l IHl r IHr]; [reflexivity|].
  rewrite addrs_node. intros N. simpl.
  destruct (Nat.eqb_spec a a0).
  - exfalso. apply N. apply in_or_app. right. left. auto.
  - rewrite IHl, IHr; auto; intros X; apply N; apply in_or_app; auto.
    right. right. exact X.
Qed.

Lemma NoDup_node a c k (v : V) p l r :
  NoDup (addrs (Node a c k v p l r)) ->
  NoDup (addrs l) /\ NoDup (addrs r) /\ ~ In a (addrs l) /\ ~ In a (addrs r)
  /\ (forall x, In x (addrs l) -> ~ In x (addrs r)).
Proof.
  rewrite addrs_node. intros N.
  assert (N2 := NoDup_remove_2 _ _ _ N).
  assert (N1 := NoDup_remove_1 _ _ _ N).
  repeat split.
  - eapply NoDup_app_remove_r. exact N1.
  - eapply NoDup_app_remove_l. exact N1.
  - intros X. apply N2. apply in_or_app. auto.
  - intros X. apply N2. apply in_or_app. auto.
  - intros x X Y. revert N1 X Y. generalize (addrs l) (addrs r).
    induction l0 as [|y l0 IH]; simpl; intros r0 N1 X Y; [contradiction|].
    inversion N1; subst. destruct X as [X|X].
    + subst. apply H1. apply in_or_app. auto.
    + eapply IH; eauto.
Qed.

Lemma lookup_subtree s t :
  subtree s t ->
  forall a c k v p l r, s = Node a c k v p l r ->
  NoDup (addrs t) -> lookup t a = Some s.
Proof.
  induction 1 as [|a0 c0 k0 v0 p0 l0 r0 S IH|a0 c0 k0 v0 p0 l0 r0 S IH];
    intros a c k v p l r Es N.
  - subst s. simpl. rewrite Nat.eqb_refl. reflexivity.
  - destruct (NoDup_node _ _ _ _ _ _ _ N) as (Nl & Nr & Al & Ar & D).
    assert (Ia : In a (addrs l0)).
    { eapply subtree_addrs; eauto. subst s. apply in_addrs_root. }
    simpl. destruct (Nat.eqb_spec a a0); [subst; contradiction|].
    rewrite (IH _ _ _ _ _ _ _ Es Nl). reflexivity.
  - destruct (NoDup_node _ _ _ _ _ _ _ N) as (Nl & Nr & Al & Ar & D).
    assert (Ia : In a (addrs r0)).
    { eapply subtree_addrs; eauto. subst s. apply in_addrs_root. }
    simpl. destruct (Nat.eqb_spec a a0); [subst; contradiction|].
    rewrite lookup_none.
    + apply (IH _ _ _ _ _ _ _ Es Nr).
    + intros X. exact (D _ X Ia).
Qed.

Lemma subtree_parents s t :
  subtree s t -> forall e, parents_ok t e -> exists e', parents_ok s e'.
Proof.
  induction 1; intros e P; eauto; simpl in P; destruct P as (_ & Pl & Pr); eauto.
Qed.

Lemma subtree_NoDup s t : subtree s t -> NoDup (addrs t) -> NoDup (addrs s).
Proof.
  induction 1; intros N; auto;
    destruct (NoDup_node _ _ _ _ _ _ _ N) as (Nl & Nr & _); auto.
Qed.

Lemma subtree_trans (s u h : tree V) :
  subtree s u -> subtree u h -> subtree s h.
Proof.
  intros S S2.
  induction S2; [assumption | apply sub_left; auto | apply sub_right; auto].
Qed.

Lemma subtree_left a c k (v : V) p l r h :
  subtree (Node a c k v p l r) h -> subtree l h.
Proof. apply subtree_trans. apply sub_left, sub_here. Qed.

Lemma subtree_right a c k (v : V) p l r h :
  subtree (Node a c k v p l r) h -> subtree r h.
Proof. apply subtree_trans. apply sub_right, sub_here. Qed.

Lemma at_pos_subtree h u pre post d : at_pos h u pre post d -> subtree u h.
Proof.
  induction 1.
  - apply sub_here.
  - eapply subtree_left; eauto.
  - eapply subtree_right; eauto.
Qed.

Lemma at_pos_addrs h u pre post d :
  at_pos h u pre post d -> addrs h = pre ++ addrs u ++ post.
Proof.
  induction 1.
  - simpl. rewrite app_nil_r. reflexivity.
  - rewrite IHat_pos, addrs_node. list_norm. reflexivity.
  - rewrite IHat_pos, addrs_node. list_norm. reflexivity.
Qed.

Lemma at_pos_depth h u pre post d :
  at_pos h u pre post d -> (d + count u <= count h)%nat.
Proof.
  induction 1; simpl in *; lia.
Qed.

Lemma subtree_at_pos h s u :
  subtree s u ->
  forall pre post d, at_pos h u pre post d ->
  exists pre' post' d', at_pos h s pre' post' d'.
Proof.
  induction 1; intros pre post d P.
  - eauto.
  - eapply IHsubtree. eapply at_left. exact P.
  - eapply IHsubtree. eapply at_right. exact P.
Qed.

(** *** The climbing loops *)

Lemma parents_of_child h a0 c0 k0 v0 p0 l0 r0 :
  subtree (Node a0 c0 k0 v0 p0 l0 r0) h -> inv_parents h ->
  parents_ok l0 (Some a0) /\ parents_ok r0 (Some a0).
Proof.
  intros S P. destruct (subtree_parents _ _ S _ P) as (e & Pe).
  simpl in Pe. tauto.
Qed.

Lemma climb_right_spec h u pre post d :
  at_pos h u pre post d ->
  NoDup (addrs h) -> inv_parents h ->
  forall a c k v p l r, u = Node a c k v p l r ->
  forall fuel, (d < fuel)%nat ->
  climb DIR_RIGHT fuel h a = Some (hd_error post).
Proof.
  induction 1 as [|a0 c0 k0 v0 p0 l0 r0 pre post d P IH
                  |a0 c0 k0 v0 p0 l0 r0 pre post d P IH];
    intros N Pa a c k v p l r Eu fuel Hf;
    (destruct fuel as [|fuel]; [lia|]); cbn [climb].
  - subst h. cbn [lookup]. rewrite Nat.eqb_refl. cbn [bind get_parent].
    destruct Pa as (-> & _). reflexivity.
  - assert (S0 := at_pos_subtree _ _ _ _ _ P).
    destruct (parents_of_child _ _ _ _ _ _ _ _ S0 Pa) as (Pl & _).
    assert (S1 := subtree_left _ _ _ _ _ _ _ _ S0).
    rewrite (lookup_subtree _ _ S1 _ _ _ _ _ _ _ Eu N). cbn [bind].
    subst l0. destruct Pl as (-> & _). cbn [get_parent bind].
    rewrite (lookup_subtree _ _ S0 _ _ _ _ _ _ _ eq_refl N). cbn [bind child].
    assert (Nn := subtree_NoDup _ _ S0 N).
    destruct (NoDup_node _ _ _ _ _ _ _ Nn) as (_ & _ & _ & _ & D).
    assert (X : ptr_eqb (Some a) (get r0) = false).
    { destruct r0 as [|ra rc rk rv rp rl rr]; [reflexivity|]. cbn.
      apply Nat.eqb_neq. intros ->.
      exact (D _ (in_addrs_root _ _ _ _ _ _ _) (in_addrs_root _ _ _ _ _ _ _)). }
    rewrite X. reflexivity.
  - assert (S0 := at_pos_subtree _ _ _ _ _ P).
    destruct (parents_of_child _ _ _ _ _ _ _ _ S0 Pa) as (_ & Pr).
    assert (S1 := subtree_right _ _ _ _ _ _ _ _ S0).
    rewrite (lookup_subtree _ _ S1 _ _ _ _ _ _ _ Eu N). cbn [bind].
    subst r0. destruct Pr as (-> & _). cbn [get_parent bind].
    rewrite (lookup_subtree _ _ S0 _ _ _ _ _ _ _ eq_refl N). cbn [bind child get ptr_eqb].
    rewrite Nat.eqb_refl.
    apply (IH N Pa _ _ _ _ _ _ _ eq_refl). lia.
Qed.

Lemma climb_left_spec h u pre post d :
  at_pos h u pre post d ->
  NoDup (addrs h) -> inv_parents h ->
  forall a c k v p l r, u = Node a c k v p l r ->
  forall fuel, (d < fuel)%nat ->
  climb DIR_LEFT fuel h a = Some (last_error pre).
Proof.
  induction 1 as [|a0 c0 k0 v0 p0 l0 r0 pre post d P IH
                  |a0 c0 k0 v0 p0 l0 r0 pre post d P IH];
    intros N Pa a c k v p l r Eu fuel Hf;
    (destruct fuel as [|fuel]; [lia|]); cbn [climb].
  - subst h. cbn [lookup]. rewrite Nat.eqb_refl. cbn [bind get_parent].
    destruct Pa as (-> & _). reflexivity.
  - assert (S0 := at_pos_subtree _ _ _ _ _ P).
    destruct (parents_of_child _ _ _ _ _ _ _ _ S0 Pa) as (Pl & _).
    assert (S1 := subtree_left _ _ _ _ _ _ _ _ S0).
    rewrite (lookup_subtree _ _ S1 _ _ _ _ _ _ _ Eu N). cbn [bind].
    subst l0. destruct Pl as (-> & _). cbn [get_parent bind].
    rewrite (lookup_subtree _ _ S0 _ _ _ _ _ _ _ eq_refl N).
    cbn [bind child get ptr_eqb]. rewrite Nat.eqb_refl.
    apply (IH N Pa _ _ _ _ _ _ _ eq_refl). lia.
  - assert (S0 := at_pos_subtree _ _ _ _ _ P).
    destruct (parents_of_child _ _ _ _ _ _ _ _ S0 Pa) as (_ & Pr).
    assert (S1 := subtree_right _ _ _ _ _ _ _ _ S0).
    rewrite (lookup_subtree _ _ S1 _ _ _ _ _ _ _ Eu N). cbn [bind].
    subst r0. destruct Pr as (-> & _). cbn [get_parent bind].
    rewrite (lookup_subtree _ _ S0 _ _ _ _ _ _ _ eq_refl N). cbn [bind child].
    assert (Nn := subtree_NoDup _ _ S0 N).
    destruct (NoDup_node _ _ _ _ _ _ _ Nn) as (_ & _ & _ & _ & D).
    assert (X : ptr_eqb (Some a) (get l0) = false).
    { destruct l0 as [|la lc lk lv lp ll lr]; [reflexivity|]. cbn.
      apply Nat.eqb_neq. intros ->.
      exact (D _ (in_addrs_root _ _ _ _ _ _ _) (in_addrs_root _ _ _ _ _ _ _)). }
    rewrite X, app_assoc, last_error_app. reflexivity.
Qed.

(** *** Successor and predecessor in the inorder sequence of addresses *)

Lemma next_node_spec h a c k v p l r pre post d fuel :
  at_pos h (Node a c k v p l r) pre post d ->
  NoDup (addrs h) -> inv_parents h -> (count h <= fuel)%nat ->
  next_node fuel h (Some a) = Some (hd_error (addrs r ++ post)).
Proof.
  intros P N Pa Hf. unfold next_node.
  assert (S0 := at_pos_subtree _ _ _ _ _ P).
  rewrite (lookup_subtree _ _ S0 _ _ _ _ _ _ _ eq_refl N). cbn [bind child].
  destruct r as [|ra rc rk rv rp rl rr].
  - cbn [is_null negb]. simpl app.
    apply (climb_right_spec _ _ _ _ _ P N Pa _ _ _ _ _ _ _ eq_refl).
    apply at_pos_depth in P. simpl in P. lia.
  - cbn [is_null negb]. rewrite find_min_head, hd_error_app; [reflexivity|].
    apply addrs_nonempty. reflexivity.
Qed.

Lemma prev_node_spec h a c k v p l r pre post d fuel :
  at_pos h (Node a c k v p l r) pre post d ->
  NoDup (addrs h) -> inv_parents h -> (count h <= fuel)%nat ->
  prev_node fuel h (Some a) = Some (last_error (pre ++ addrs l)).
Proof.
  intros P N Pa Hf. unfold prev_node.
  assert (S0 := at_pos_subtree _ _ _ _ _ P).
  rewrite (lookup_subtree _ _ S0 _ _ _ _ _ _ _ eq_refl N). cbn [bind child].
  destruct l as [|la lc lk lv lp ll lr].
  - cbn [is_null negb]. change (addrs Leaf) with (@nil addr). rewrite app_nil_r.
    apply (climb_left_spec _ _ _ _ _ P N Pa _ _ _ _ _ _ _ eq_refl).
    apply at_pos_depth in P. simpl in P. lia.
  - cbn [is_null negb]. rewrite find_max_last, last_error_app_r; [reflexivity|].
    apply addrs_nonempty. reflexivity.
Qed.

Lemma in_addrs_at_pos h a :
  In a (addrs h) ->
  exists c k v p l r pre post d, at_pos h (Node a c k v p l r) pre post d.
Proof.
  intros Hin. destruct (in_addrs_subtree _ _ Hin) as (c & k & v & p & l & r & S).
  destruct (subtree_at_pos h _ _ S _ _ _ (at_root h)) as (pre & post & d & P).
  exists c, k, v, p, l, r, pre, post, d. exact P.
Qed.

Lemma NoDup_split_unique {A : Type} (x : A) (l1 l2 m1 m2 : list A) :
  NoDup (l1 ++ x :: l2) -> l1 ++ x :: l2 = m1 ++ x :: m2 ->
  l1 = m1 /\ l2 = m2.
Proof.
  revert m1. induction l1 as [|y l1 IH]; intros m1 N E.
  - destruct m1 as [|z m1]; simpl in *.
    + injection E as ->. auto.
    + injection E as <- ->. inversion N; subst.
      exfalso. apply H1. apply in_or_app. right. left. reflexivity.
  - destruct m1 as [|z m1]; simpl in *.
    + injection E as -> <-. inversion N; subst.
      exfalso. apply H1. apply in_or_app. right. left. reflexivity.
    + injection E as <- E. inversion N; subst.
      destruct (IH _ H2 E) as [-> ->]. auto.
Qed.

(** ** The claims about iterators *)

(** C9. In a well-formed tree (search order, parent links, distinct node
    addresses) and with fuel for the height of the tree: from an iterator at
    a node, advancing and then retreating leads back to that node; retreating
    from the end position leads to a node whose key is the maximum. *)
Theorem iterator_symmetry (T : RBTree V) (fuel : nat) (a : addr) :
  inv_bst (m_root T) -> inv_parents (m_root T) -> NoDup (addrs (m_root T)) ->
  (count (m_root T) <= fuel)%nat ->
  In a (addrs (m_root T)) ->
  (exists next,
      iter_incr fuel T (Some a) = Some next
      /\ iter_decr fuel T next = Some (Some a))
  /\ (exists m km vm,
        iter_decr fuel T (end_ T) = Some (Some m)
        /\ In (m, km, vm) (elements (m_root T))
        /\ forall k, In k (keys (m_root T)) -> k <= km).
Proof.
  intros B Pa N Hf Hin. split.
  - destruct (in_addrs_at_pos _ _ Hin)
      as (c & k & v & p & l & r & pre & post & d & P).
    exists (hd_error (addrs r ++ post)). split.
    + unfold iter_incr. eapply next_node_spec; eauto.
    + assert (E := at_pos_addrs _ _ _ _ _ P). rewrite addrs_node in E.
      destruct (addrs r ++ post) as [|b rest] eqn:Er; cbn [hd_error iter_decr].
      * apply app_eq_nil in Er. destruct Er as [Er1 Er2].
        rewrite find_max_last, E, Er1, Er2, app_nil_r, app_assoc, last_error_app.
        reflexivity.
      * assert (E2 : addrs (m_root T) = (pre ++ addrs l ++ [a]) ++ b :: rest).
        { rewrite E, <- Er. list_norm. reflexivity. }
        assert (Hb : In b (addrs (m_root T))).
        { rewrite E2. apply in_or_app. right. left. reflexivity. }
        destruct (in_addrs_at_pos _ _ Hb)
          as (c' & k' & v' & p' & l' & r' & pre' & post' & d' & P').
        rewrite (prev_node_spec _ _ _ _ _ _ _ _ _ _ _ fuel P' N Pa Hf).
        assert (E' := at_pos_addrs _ _ _ _ _ P'). rewrite addrs_node in E'.
        assert (E3 : addrs (m_root T) = (pre' ++ addrs l') ++ b :: addrs r' ++ post').
        { rewrite E'. list_norm. reflexivity. }
        rewrite E2 in N. rewrite E2 in E3.
        destruct (NoDup_split_unique _ _ _ _ _ N E3) as [<- _].
        rewrite app_assoc, last_error_app. reflexivity.
  - assert (Nn : is_null (m_root T) = false).
    { destruct (m_root T); [contradiction|reflexivity]. }
    destruct (find_max_node _ Nn) as (pa & pc & pk & pv & pp & pl & pre & F1 & F2).
    exists pa, pk, pv. split; [|split].
    + cbn [iter_decr end_]. rewrite F1. reflexivity.
    + rewrite F2. apply in_or_app. right. left. reflexivity.
    + intros k Hk. apply inv_bst_sorted in B. unfold keys in *.
      rewrite F2, map_app in *. cbn [map] in *.
      apply sorted_app_iff in B. destruct B as (_ & _ & F & _).
      apply in_app_or in Hk. destruct Hk as [Hk|[Hk|[]]].
      * rewrite Forall_forall in F. apply F in Hk. cbn in Hk. cbn. lia.
      * subst k. cbn. lia.
Qed.

(** C10. At the end position: advancing stays at the end; in an empty tree
    retreating stays at the end; and [begin()] equals [end()] exactly when
    the tree is empty. *)
Theorem end_boundary (T : RBTree V) (fuel : nat) (sz : Z) :
  iter_incr fuel T (end_ T) = Some (end_ T)
  /\ iter_decr fuel (mkRBTree (@Leaf V) sz) (end_ (mkRBTree (@Leaf V) sz))
     = Some (end_ (mkRBTree (@Leaf V) sz))
  /\ (iter_eqb (begin_ T) (end_ T) = true <-> is_empty T = true).
Proof.
  split; [reflexivity|]. split; [reflexivity|].
  unfold iter_eqb, begin_, end_, is_empty.
  rewrite <- (find_min_null (m_root T)).
  destruct (find_min (m_root T)); simpl; split; auto.
Qed.

(** ** Traversal *)

Section VisitProofs.
Variable S : Type.
Variable visitor : K -> V -> S -> bool * S.

Lemma visit_list_app (l1 l2 : list (K * V)) (s : S) :
  visit_list visitor (l1 ++ l2) s =
  let '(b, s') := visit_list visitor l1 s in
  if negb b then (false, s') else visit_list visitor l2 s'.
Proof.
  revert s. induction l1 as [|[k v] l1 IH]; intros s; simpl.
  - reflexivity.
  - destruct (visitor k v s) as [b s']. destruct b; simpl; auto.
Qed.

Lemma visit_inorder_list t (s : S) :
  visit_inorder visitor t s = visit_list visitor (kvs t) s.
Proof.
  revert s. induction t as [|a c k v p l IHl r IHr]; intros s; simpl; auto.
  rewrite kvs_node, visit_list_app, IHl.
  destruct (visit_list visitor (kvs l) s) as [b s']. destruct b; simpl; auto.
  destruct (visitor k v s') as [b s'']. destruct b; simpl; auto.
Qed.

End VisitProofs.

Lemma visit_list_traced (S : Type) (visitor : K -> V -> S -> bool * S)
    (l : list (K * V)) :
  forall s log0,
  exists b s' new rest,
    visit_list (traced visitor) l (s, log0) = (b, (s', log0 ++ new))
    /\ visit_list visitor l s = (b, s')
    /\ map fst l = map fst new ++ rest
    /\ (b = true -> rest = [] /\ Forall (fun e => snd e = true) new)
    /\ (b = false ->
        exists pre k, new = pre ++ [(k, false)]
                      /\ Forall (fun e => snd e = true) pre).
Proof.
  induction l as [|[k v] l IH]; intros s log0.
  - exists true, s, [], []. simpl. rewrite app_nil_r.
    repeat split; auto. discriminate.
  - cbn [visit_list]. unfold traced at 1. cbn [fst snd].
    destruct (visitor k v s) as [b s1] eqn:E. destruct b; cbn [negb].
    + destruct (IH s1 (log0 ++ [(k, true)]))
        as (b & s' & new & rest & E1 & E2 & E3 & E4 & E5).
      exists b, s', ((k, true) :: new), rest.
      rewrite E1, E2, <- app_assoc. cbn [map fst]. rewrite E3. simpl. repeat split; auto.
      * apply E4; auto.
      * constructor; auto. apply E4; auto.
      * intros Hb. destruct (E5 Hb) as (pre & k' & -> & F).
        exists ((k, true) :: pre), k'. split; auto.
    + exists false, s1, [(k, false)], (map fst l). simpl.
      repeat split; auto; try discriminate.
      intros _. exists [], k. auto.
Qed.

(** Insertions and removals keep the search order, and never fail. *)
Lemma apply_op_bst (T : RBTree V) (o : op V) :
  inv_bst (m_root T) ->
  exists T', apply_op T o = Some T' /\ inv_bst (m_root T').
Proof.
  intros B. destruct o as [fresh key value|fresh key value|key]; cbn [apply_op].
  - destruct (insert_with_spec T B false fresh key value) as (res & T' & E & B' & _).
    unfold insert. rewrite E. cbn [bind]. eauto.
  - destruct (insert_with_spec T B true fresh key value) as (res & T' & E & B' & _).
    unfold insert_or_update. rewrite E. cbn [bind]. eauto.
  - destruct (in_dec Z.eq_dec key (keys (m_root T))) as [Hin|Nin].
    + destruct (remove_spec T key B Hin) as (v & T' & E & _ & _ & B' & _).
      rewrite E. cbn [bind]. eauto.
    + unfold remove. rewrite (try_remove_absent _ _ Nin). cbn [bind]. eauto.
Qed.

Lemma run_bst (ops : list (op V)) :
  forall T, inv_bst (m_root T) ->
  exists T', run ops T = Some T' /\ inv_bst (m_root T').
Proof.
  induction ops as [|o ops IH]; intros T B; cbn [run].
  - eauto.
  - destruct (apply_op_bst T o B) as (T1 & E & B1). rewrite E. cbn [bind]. auto.
Qed.

(** C8. A tree built by any sequence of insertions has its keys in strictly
    ascending inorder sequence.  Every visitor is called on a prefix of that
    sequence, in that order: a call that answers stop is the last call, and
    when no call answers stop every key has been visited.  The log records
    the calls and their answers; logging does not change what the visitor
    sees. *)
Theorem inorder_ascending_and_stop (ops : list (op V)) :
  forallb (@is_insertion V) ops = true ->
  exists T,
    run ops (empty_tree V) = Some T
    /\ StronglySorted Z.lt (keys (m_root T))
    /\ forall (S : Type) (visitor : K -> V -> S -> bool * S) (s : S),
       exists b s' log rest,
         visit_inorder (traced visitor) (m_root T) (s, []) = (b, (s', log))
         /\ visit_inorder visitor (m_root T) s = (b, s')
         /\ keys (m_root T) = map fst log ++ rest
         /\ (forall k, In (k, false) log ->
             b = false /\ exists pre, log = pre ++ [(k, false)])
         /\ ((forall k, ~ In (k, false) log) -> b = true /\ rest = []).
Proof.
  intros _.
  destruct (run_bst ops (empty_tree V) I) as (T & E & B).
  exists T. split; [exact E|]. split; [apply inv_bst_sorted; exact B|].
  intros S visitor s.
  destruct (visit_list_traced S visitor (kvs (m_root T)) s [])
    as (b & s' & new & rest & E1 & E2 & E3 & E4 & E5).
  exists b, s', new, rest.
  rewrite !visit_inorder_list, keys_kvs.
  split; [exact E1|]. split; [exact E2|]. split; [exact E3|]. split.
  - intros k Hin. destruct b.
    + destruct (E4 eq_refl) as (_ & F). rewrite Forall_forall in F.
      apply F in Hin. discriminate.
    + split; auto. destruct (E5 eq_refl) as (pre & k' & -> & F).
      apply in_app_or in Hin. destruct Hin as [Hin|[Hin|[]]].
      * rewrite Forall_forall in F. apply F in Hin. discriminate.
      * injection Hin as ->. eauto.
  - intros Hn. destruct b.
    + split; auto. apply E4; auto.
    + destruct (E5 eq_refl) as (pre & k' & -> & F).
      exfalso. apply (Hn k'). apply in_or_app. right. left. reflexivity.
Qed.

(** ** Validation *)

Lemma has_bh_fun t : forall n m, has_bh t n -> has_bh t m -> n = m.
Proof.
  induction t as [|a c k v p l IHl r IHr]; intros n m H1 H2;
    inversion H1; subst; inversion H2; subst; auto.
Qed.

Lemma validate_parents_ok t e : validate_parents t e = true <-> parents_ok t e.
Proof.
  revert e. induction t as [|a c k v p l IHl r IHr]; intros e; simpl.
  - tauto.
  - rewrite !andb_true_iff, IHl, IHr.
    assert (X : ptr_eqb p e = true <-> p = e).
    { destruct p, e; simpl; try rewrite Nat.eqb_eq; split; congruence. }
    rewrite X. tauto.
Qed.

Lemma local_order_children a c k (v : V) p l r :
  local_order (Node a c k v p l r) <->
  (match l with Leaf => false | Node _ _ lk _ _ _ _ => lk >=? k end
   || match r with Leaf => false | Node _ _ rk _ _ _ _ => rk <=? k end) = false
  /\ local_order l /\ local_order r.
Proof.
  cbn [local_order]. rewrite orb_false_iff.
  assert (X : (match l with Leaf => false | Node _ _ lk _ _ _ _ => lk >=? k end) = false
              <-> match l with Leaf => True | Node _ _ lk _ _ _ _ => lk < k end).
  { destruct l; [tauto|]. rewrite Z.geb_leb, Z.leb_gt. tauto. }
  assert (Y : (match r with Leaf => false | Node _ _ rk _ _ _ _ => rk <=? k end) = false
              <-> match r with Leaf => True | Node _ _ rk _ _ _ _ => k < rk end).
  { destruct r; [tauto|]. rewrite Z.leb_gt. tauto. }
  rewrite X, Y. tauto.
Qed.

Lemma inv_red_children a c k (v : V) p l r :
  inv_red (Node a c k v p l r) <->
  color_is_red c && (is_red l || is_red r) = false /\ inv_red l /\ inv_red r.
Proof.
  cbn [inv_red]. destruct c; cbn [color_is_red andb].
  - rewrite orb_false_iff. intuition congruence.
  - intuition congruence.
Qed.

Lemma validate_red_black_tree_spec t :
  match validate_red_black_tree t with
  | (true, S n) => inv_red t /\ local_order t /\ has_bh t n
  | (false, O) => ~ (inv_red t /\ local_order t /\ inv_black_height t)
  | _ => False
  end.
Proof.
  induction t as [|a c k v p l IHl r IHr].
  - simpl. repeat split; constructor.
  - cbn [validate_red_black_tree].
    destruct (color_is_red c && (is_red l || is_red r)) eqn:R.
    { intros (X & _). apply inv_red_children in X. destruct X as (X & _). congruence. }
    destruct (validate_red_black_tree l) as [lv lh].
    destruct (validate_red_black_tree r) as [rv rh].
    match goal with |- context [if ?b then (false, O) else _] =>
      destruct b eqn:O end.
    { intros (_ & X & _). apply local_order_children in X. destruct X as (X & _).
      congruence. }
    assert (Hr : inv_red l -> inv_red r -> inv_red (Node a c k v p l r)).
    { intros. apply inv_red_children. auto. }
    assert (Ho : local_order l -> local_order r -> local_order (Node a c k v p l r)).
    { intros. apply local_order_children. auto. }
    assert (Down : inv_red (Node a c k v p l r) /\ local_order (Node a c k v p l r)
                   /\ inv_black_height (Node a c k v p l r) ->
                   (inv_red l /\ local_order l /\ inv_black_height l)
                   /\ (inv_red r /\ local_order r /\ inv_black_height r)
                   /\ exists n, has_bh l n /\ has_bh r n).
    { intros (X & Y & n & Z). apply inv_red_children in X.
      apply local_order_children in Y.
      inversion Z; subst; repeat split; try tauto; try (eexists; eassumption);
        eexists; split; eassumption. }
    destruct lv, lh as [|ln]; try contradiction;
      destruct rv, rh as [|rn]; try contradiction; cbn [Nat.eqb negb andb].
    + destruct IHl as (Rl & Ol & Bl). destruct IHr as (Rr & Or & Br).
      destruct (Nat.eqb_spec ln rn); cbn [negb].
      * subst rn. destruct c; cbn [color_is_red];
          (split; [apply Hr; auto|split; [apply Ho; auto|constructor; auto]]).
      * intros X. apply Down in X. destruct X as (_ & _ & m & B1 & B2).
        apply n. rewrite (has_bh_fun _ _ _ Bl B1), (has_bh_fun _ _ _ Br B2).
        reflexivity.
    + intros X. apply Down in X. tauto.
    + intros X. apply Down in X. tauto.
    + intros X. apply Down in X. tauto.
Qed.

Lemma inv_bst_local_order t : inv_bst t -> local_order t.
Proof.
  induction t as [|a c k v p l IHl r IHr]; [auto|].
  intros (Hl & Hr & Bl & Br). cbn [local_order]. repeat split; auto.
  - destruct l; auto. rewrite keys_node in Hl. rewrite Forall_forall in Hl.
    apply Hl. apply in_or_app. right. left. reflexivity.
  - destruct r; auto. rewrite keys_node in Hr. rewrite Forall_forall in Hr.
    apply Hr. apply in_or_app. right. left. reflexivity.
Qed.

(** C2, as the code has it.  [validate] passes exactly on the containers that
    are empty with size 0, or non-empty with a size other than 0, parent links
    equal to the structural parents (invariant 5), no red node with a red
    child (invariant 2), equal black heights (invariant 3) and every child
    key ordered against the key of its own parent.  It does not look at the
    color of the root (invariant 4), and from the search order (invariant 1)
    it checks only what shows between a node and its children.  A container
    that satisfies all the invariants passes. *)
Theorem validate_spec (T : RBTree V) :
  (validate T = true <-> validate_checks T)
  /\ (all_invariants T -> validate T = true).
Proof.
  assert (M : validate T = true <-> validate_checks T).
  { unfold validate, validate_checks, is_empty, size.
    destruct (m_root T) as [|a c k v p l r] eqn:Er; cbn [is_null].
    - rewrite Z.eqb_eq. split; [auto|]. intros [(_ & X)|(X & _)]; congruence.
    - rewrite !andb_true_iff, negb_true_iff, Z.eqb_neq, validate_parents_ok.
      assert (Sp := validate_red_black_tree_spec (Node a c k v p l r)).
      destruct (validate_red_black_tree (Node a c k v p l r)) as [b h].
      split.
      + intros ((X & Y) & Z). right. split; [discriminate|].
        split; [exact X|]. split; [exact Y|].
        destruct b, h as [|n]; try contradiction; try discriminate.
        destruct Sp as (R & O & B).
        split; [exact R|]. split; [exists n; exact B|exact O].
      + intros [(X & _)|(_ & X & P & R & B & O)]; [discriminate|].
        split; [split; [exact X|exact P]|].
        destruct b, h as [|n]; try contradiction; try reflexivity.
        exfalso. apply Sp. split; [exact R|]. split; [exact O|exact B]. }
  split; [exact M|].
  intros (B & R & H & _ & P & Sz). apply M. unfold validate_checks.
  unfold inv_size in Sz.
  destruct (m_root T) as [|a c k v p l r] eqn:Er.
  - left. auto.
  - right. split; [discriminate|]. split.
    + rewrite Sz. simpl. lia.
    + split; [exact P|]. split; [exact R|]. split; [exact H|].
      apply inv_bst_local_order. exact B.
Qed.

(** ** Parent links, addresses and the cached size under the operations *)

Lemma parents_ok_reparent t e p : parents_ok t e -> parents_ok (reparent t p) p.
Proof. destruct t; simpl; tauto. Qed.

Lemma parents_ok_recolor t e c : parents_ok t e -> parents_ok (recolor t c) e.
Proof. destruct t; simpl; tauto. Qed.

Ltac parents_brute :=
  unfold_ptr; cbn;
  repeat (break_match; cbn);
  intros;
  repeat match goal with
         | H : Some _ = Some _ |- _ => injection H as <-
         | H : None = Some _ |- _ => discriminate H
         | H : (_, _) = (_, _) |- _ => injection H as <- <-
         end;
  cbn in *; intuition (subst; auto).

Lemma insert_rebalance_parents root dir e t' :
  insert_rebalance root dir = Some t' -> parents_ok root e -> parents_ok t' e.
Proof.
  destruct root as [|a c k v p l r]; [discriminate|].
  unfold insert_rebalance, double_rotation, single_rotation.
  destruct dir; parents_brute.
Qed.

Lemma remove_rebalance_parents root dir e t' d :
  remove_rebalance root dir = Some (t', d) -> parents_ok root e -> parents_ok t' e.
Proof.
  destruct root as [|a c k v p l r]; [discriminate|].
  unfold remove_rebalance, double_rotation, single_rotation.
  destruct dir; parents_brute.
Qed.

Lemma try_insert_parents t :
  forall fresh parent key value upd sz res t' sz',
  try_insert_key_val fresh parent t key value upd sz = Some (res, t', sz') ->
  parents_ok t parent -> parents_ok t' parent.
Proof.
  induction t as [|a c k v p l IHl r IHr];
    intros fresh parent key value upd sz res t' sz' E P.
  - cbn in E. injection E as <- <- <-. cbn. auto.
  - destruct P as (-> & Pl & Pr). cbn [try_insert_key_val] in E.
    destruct (key <? k).
    + destruct (try_insert_key_val fresh (Some a) l key value upd sz)
        as [[[res1 l'] sz1]|] eqn:E1; cbn [bind] in E; [|discriminate].
      assert (P' : parents_ok (Node a c k v parent l' r) parent).
      { cbn. repeat split; auto. eapply IHl; eauto. }
      destruct (Result_eqb res1 Inserted).
      * destruct (insert_rebalance (Node a c k v parent l' r) DIR_LEFT) eqn:R;
          cbn [bind] in E; [|discriminate].
        injection E as <- <- <-. eapply insert_rebalance_parents; eauto.
      * injection E as <- <- <-. exact P'.
    + destruct (key >? k).
      * destruct (try_insert_key_val fresh (Some a) r key value upd sz)
          as [[[res1 r'] sz1]|] eqn:E1; cbn [bind] in E; [|discriminate].
        assert (P' : parents_ok (Node a c k v parent l r') parent).
        { cbn. repeat split; auto. eapply IHr; eauto. }
        destruct (Result_eqb res1 Inserted).
        -- destruct (insert_rebalance (Node a c k v parent l r') DIR_RIGHT) eqn:R;
             cbn [bind] in E; [|discriminate].
           injection E as <- <- <-. eapply insert_rebalance_parents; eauto.
        -- injection E as <- <- <-. exact P'.
      * destruct upd; injection E as <- <- <-; cbn; auto.
Qed.

Lemma try_remove_parents t :
  forall done key sz t' d res sz' n e,
  try_remove_key t done key sz = Some (t', d, res, sz', n) ->
  parents_ok t e -> parents_ok t' e.
Proof.
  induction t as [|a c k v p l IHl r IHr];
    intros done key sz t' d res sz' n e E P.
  - cbn in E. injection E as <- <- <- <- <-. exact I.
  - destruct P as (-> & Pl & Pr).
    assert (Frame : forall rk kp rv removed,
      (let dir := dir_of_bool (rk <? kp) in
       '(c', is_done, result, sz0, fixups) <-
         match dir with
         | DIR_LEFT => try_remove_key l done kp sz
         | DIR_RIGHT => try_remove_key r done kp sz
         end ;;
       root <- set_child (Node a c rk rv e l r) dir c' ;;
       '(root, is_done, fixups) <-
         (if negb is_done then
            '(root, is_done) <- remove_rebalance root dir ;;
            Some (root, is_done, S fixups)
          else Some (root, is_done, fixups)) ;;
       Some (root, is_done,
             match removed with Some _ => removed | None => result end,
             sz0, fixups)) = Some (t', d, res, sz', n) ->
      parents_ok t' e).
    { intros rk kp rv removed. cbn zeta.
      destruct (dir_of_bool (rk <? kp)).
      - destruct (try_remove_key l done kp sz) as [[[[[c' d1] r1] s1] n1]|] eqn:E1;
          cbn [bind set_child]; [|discriminate].
        assert (P' : parents_ok (Node a c rk rv e c' r) e).
        { cbn. repeat split; auto. eapply IHl; eauto. }
        destruct (negb d1).
        + destruct (remove_rebalance (Node a c rk rv e c' r) DIR_LEFT)
            as [[x y]|] eqn:R; cbn [bind]; [|discriminate].
          intros H. injection H as <- <- <- <- <-.
          eapply remove_rebalance_parents; eauto.
        + cbn [bind]. intros H. injection H as <- <- <- <- <-. exact P'.
      - destruct (try_remove_key r done kp sz) as [[[[[c' d1] r1] s1] n1]|] eqn:E1;
          cbn [bind set_child]; [|discriminate].
        assert (P' : parents_ok (Node a c rk rv e l c') e).
        { cbn. repeat split; auto. eapply IHr; eauto. }
        destruct (negb d1).
        + destruct (remove_rebalance (Node a c rk rv e l c') DIR_RIGHT)
            as [[x y]|] eqn:R; cbn [bind]; [|discriminate].
          intros H. injection H as <- <- <- <- <-.
          eapply remove_rebalance_parents; eauto.
        + cbn [bind]. intros H. injection H as <- <- <- <- <-. exact P'. }
    cbn [try_remove_key] in E. destruct (k =? key).
    + destruct (is_null l || is_null r).
      * assert (Pc : parents_ok (if is_null l then r else l) (Some a))
          by (destruct (is_null l); auto).
        destruct (color_is_red c).
        { injection E as <- <- <- <- <-. eapply parents_ok_reparent; eauto. }
        destruct (is_red (if is_null l then r else l));
          injection E as <- <- <- <- <-.
        -- eapply parents_ok_reparent. eapply parents_ok_recolor. eauto.
        -- eapply parents_ok_reparent; eauto.
      * destruct (find_max l) as [|ma mc mk mv mp ml mr]; [discriminate|].
        exact (Frame mk mk mv (Some v) E).
    + exact (Frame k key v None E).
Qed.

Lemma count_elements t : count t = length (elements t).
Proof.
  induction t as [|a c k v p l IHl r IHr]; [reflexivity|].
  simpl. rewrite length_app. simpl. lia.
Qed.

Lemma elements_assign key value t :
  map addr_of (elements (assign key value t)) = map addr_of (elements t).
Proof.
  induction t as [|a c k v p l IHl r IHr]; [reflexivity|].
  simpl. rewrite !map_app. simpl. rewrite IHl, IHr. reflexivity.
Qed.

Lemma insert_with_wf (T : RBTree V) upd fresh key value res T' :
  insert_with upd fresh T key value = Some (res, T') ->
  inv_bst (m_root T) -> inv_parents (m_root T) -> NoDup (addrs (m_root T)) ->
  inv_size T -> m_size T < size_max - 1 ->
  ~ In fresh (addrs (m_root T)) ->
  inv_bst (m_root T') /\ inv_parents (m_root T') /\ NoDup (addrs (m_root T'))
  /\ inv_size T' /\ m_size T' < size_max.
Proof.
  intros E B P N Sz Hs Hf.
  destruct (insert_with_spec T B upd fresh key value) as (res' & T'' & E' & B' & Post).
  rewrite E in E'. injection E' as <- <-.
  split; [exact B'|]. split.
  { unfold insert_with in E.
    destruct (try_insert_key_val fresh None (m_root T) key value upd (m_size T))
      as [[[res1 t1] sz1]|] eqn:E1; cbn [bind] in E; [|discriminate].
    assert (P1 := try_insert_parents _ _ _ _ _ _ _ _ _ _ E1 P).
    destruct (Result_eqb res1 Inserted).
    - destruct t1; cbn in E; [discriminate|]. injection E as <- <-. exact P1.
    - injection E as <- <-. exact P1. }
  unfold inv_size in *. rewrite !count_elements in *.
  destruct Post as [(Nin & -> & E1 & pre & post & E2 & E3 & _)|(Hin & E1 & _ & E2)].
  - unfold addrs in *. rewrite E3, E1. rewrite E2 in N, Hf, Sz.
    rewrite map_app in *. cbn [map]. rewrite length_app in *. cbn [length].
    assert (0 <= m_size T) by lia.
    rewrite size_incr_small by lia.
    split; [|lia].
    apply NoDup_Add with (a := addr_of (fresh, key, value))
                         (l := map addr_of pre ++ map addr_of post).
    + apply Add_app.
    + split; [exact N|exact Hf].
  - rewrite E1. unfold addrs. destruct upd; rewrite E2.
    + rewrite elements_assign.
      assert (L : length (elements (assign key value (m_root T)))
                  = length (elements (m_root T))).
      { rewrite <- (length_map addr_of), elements_assign, length_map. reflexivity. }
      rewrite L. split; [exact N|]. lia.
    + split; [exact N|]. lia.
Qed.

Lemma remove_wf (T : RBTree V) key res T' :
  remove T key = Some (res, T') ->
  inv_bst (m_root T) -> inv_parents (m_root T) -> NoDup (addrs (m_root T)) ->
  inv_size T -> m_size T < size_max ->
  inv_bst (m_root T') /\ inv_parents (m_root T') /\ NoDup (addrs (m_root T'))
  /\ inv_size T' /\ m_size T' < size_max.
Proof.
  intros E B P N Sz Hs.
  destruct (in_dec Z.eq_dec key (keys (m_root T))) as [Hin|Nin].
  - assert (P' : inv_parents (m_root T')).
    { unfold remove in E.
      destruct (try_remove_key (m_root T) false key (m_size T))
        as [[[[[t1 d1] r1] s1] n1]|] eqn:E1; cbn [bind] in E; [|discriminate].
      assert (P1 := try_remove_parents _ _ _ _ _ _ _ _ _ _ E1 P).
      injection E as <- <-. cbn [m_root].
      destruct r1; [|exact P1]. destruct (is_null t1); [exact P1|].
      apply parents_ok_recolor. exact P1. }
    destruct (remove_spec T key B Hin) as (v & T'' & E' & _ & _ & B' & _).
    rewrite E in E'. injection E' as -> <-.
    destruct (in_keys_subtree _ _ Hin) as (a & c & v' & p & l & r & S).
    destruct (remove_found T a c key v' p l r B S)
      as (T'' & s' & pre & post & E1 & E2 & E3 & E4 & E5).
    rewrite E in E1. injection E1 as _ <-.
    split; [exact B'|]. split; [exact P'|].
    unfold inv_size in *. rewrite !count_elements in *.
    unfold addrs in *. rewrite E5, E2. rewrite E4 in N, Sz.
    assert (X : exists x m1 m2,
               map addr_of (pre ++ (elements l ++ (a, key, v') :: elements r) ++ post)
               = m1 ++ x :: m2
               /\ map addr_of (pre ++ elements s' ++ post) = m1 ++ m2).
    { destruct E3 as [(_ & Es)|(_ & pa & pc & pk & pv & pp & pl & lpre & F1 & F2 & Es)];
        rewrite Es.
      - exists a, (map addr_of pre ++ map addr_of (elements l)),
          (map addr_of (elements r) ++ map addr_of post).
        rewrite !map_app. cbn [map]. list_norm. auto.
      - exists pa, (map addr_of pre ++ map addr_of lpre),
          (a :: map addr_of (elements r) ++ map addr_of post).
        rewrite F2, !map_app. cbn [map]. list_norm. auto. }
    destruct X as (x & m1 & m2 & X1 & X2).
    rewrite X2. rewrite X1 in N.
    split; [eapply NoDup_remove_1; exact N|].
    assert (L1 : length (pre ++ (elements l ++ (a, key, v') :: elements r) ++ post)
                 = Datatypes.S (length (pre ++ elements s' ++ post))).
    { rewrite <- (length_map addr_of), X1, <- (length_map addr_of (pre ++ _)), X2.
      rewrite !length_app. cbn [length]. lia. }
    rewrite L1 in Sz. rewrite size_decr_small by lia. lia.
  - unfold remove in E. rewrite (try_remove_absent _ _ Nin) in E. cbn [bind] in E.
    injection E as <- <-. destruct T. cbn in *. auto.
Qed.

Lemma reachable_invariants (T : RBTree V) :
  reachable T ->
  inv_bst (m_root T) /\ inv_parents (m_root T) /\ NoDup (addrs (m_root T))
  /\ inv_size T /\ m_size T < size_max.
Proof.
  induction 1 as [|T upd fresh key value res T' R IH Hf Hs E|T key res T' R IH E].
  - cbn. repeat split; auto; try constructor; unfold size_max; lia.
  - destruct IH as (B & P & N & Sz & _). eapply insert_with_wf; eauto.
  - destruct IH as (B & P & N & Sz & Hs). eapply remove_wf; eauto.
Qed.

(** X21. Whatever the operations, removals included, a container that a
    client can build is a search tree with correct parent links, distinct
    node addresses and the right cached size. *)
Theorem reachable_wf (T : RBTree V) :
  reachable T ->
  inv_bst (m_root T) /\ inv_parents (m_root T) /\ NoDup (addrs (m_root T))
  /\ inv_size T /\ m_size T < size_max.
Proof.
  exact (reachable_invariants T).
Qed.

(** ** Colors and black heights under insertion *)

Ltac invert_bh :=
  repeat match goal with
         | H : has_bh (Node _ _ _ _ _ _ _) _ |- _ => inversion H; subst; clear H
         | H : has_bh Leaf _ |- _ => inversion H; subst; clear H
         end.

Lemma insert_rebalance_bh a c k v p l r dir t' :
  insert_rebalance (Node a c k v p l r) dir = Some t' ->
  (c = Red ->
   is_red (match dir with DIR_LEFT => r | DIR_RIGHT => l end) = false
   /\ inv_red (match dir with DIR_LEFT => l | DIR_RIGHT => r end)) ->
  forall n, has_bh (Node a c k v p l r) n -> has_bh t' n.
Proof.
  unfold insert_rebalance, double_rotation, single_rotation.
  destruct dir, c; unfold_ptr; cbn;
    repeat (break_match; cbn);
    intros E Hr n B;
    injection E as <-;
    try (destruct (Hr eq_refl) as [? ?]);
    cbn in *;
    try discriminate;
    try (exfalso; intuition discriminate);
    invert_bh; repeat constructor; assumption.
Qed.


Ltac crush_red :=
  repeat match goal with
         | H : _ /\ _ |- _ => destruct H
         | H : False |- _ => contradiction
         | H : ?x = ?x -> _ |- _ => specialize (H eq_refl)
         | H : Red = Black -> _ |- _ => clear H
         | H : Black = Red -> _ |- _ => clear H
         | H : true = false |- _ => discriminate H
         | H : false = true |- _ => discriminate H
         | H : _ \/ _ |- _ => destruct H
         end;
  repeat match goal with
         | |- _ /\ _ => split
         | |- _ -> _ => intro
         end;
  try assumption; try reflexivity; try discriminate; try congruence.

Lemma insert_rebalance_red a c k v p l r dir t' :
  insert_rebalance (Node a c k v p l r) dir = Some t' ->
  inv_red (match dir with DIR_LEFT => r | DIR_RIGHT => l end) ->
  (c = Black ->
   inv_red (match dir with DIR_LEFT => l | DIR_RIGHT => r end)
   \/ infrared (match dir with DIR_LEFT => l | DIR_RIGHT => r end)) ->
  (c = Red ->
   is_red (match dir with DIR_LEFT => r | DIR_RIGHT => l end) = false
   /\ inv_red (match dir with DIR_LEFT => l | DIR_RIGHT => r end)) ->
  (c = Black -> inv_red t') /\ (c = Red -> infrared t').
Proof.
  unfold insert_rebalance, double_rotation, single_rotation.
  destruct dir, c; unfold_ptr; cbn;
    repeat (break_match; cbn);
    intros E Ho Hb Hr;
    injection E as <-;
    (split; intros X; [try discriminate X|try discriminate X]);
    cbn in *; crush_red.
Qed.

Lemma is_red_assign key value t : is_red (assign key value t) = is_red t.
Proof. destruct t as [|a [] k v p l r]; reflexivity. Qed.

Lemma inv_red_assign key value t : inv_red t -> inv_red (assign key value t).
Proof.
  induction t as [|a c k v p l IHl r IHr]; simpl; [auto|].
  rewrite !is_red_assign. tauto.
Qed.

Lemma has_bh_assign key value t n : has_bh t n -> has_bh (assign key value t) n.
Proof.
  induction 1; simpl; constructor; auto.
Qed.

Lemma inv_red_infrared t : inv_red t -> is_red t = true -> infrared t.
Proof.
  destruct t as [|a [] k v p l r]; simpl; try discriminate.
  intros (H & Rl & Rr) _. destruct (H eq_refl) as [-> _]. auto.
Qed.

Lemma try_insert_colors t :
  inv_bst t -> inv_red t ->
  forall fresh parent key value upd sz res t' sz',
  try_insert_key_val fresh parent t key value upd sz = Some (res, t', sz') ->
  (is_red t = true -> infrared t')
  /\ (is_red t = false -> inv_red t')
  /\ (forall n, has_bh t n -> has_bh t' n).
Proof.
  induction t as [|a c k v p l IHl r IHr];
    intros B R fresh parent key value upd sz res t' sz' E.
  - cbn in E. injection E as <- <- <-. cbn. repeat split; auto; try discriminate.
    intros n H. inversion H; subst. repeat constructor.
  - assert (Same : t' = (if upd then assign key value (Node a c k v p l r)
                         else Node a c k v p l r) ->
                   (is_red (Node a c k v p l r) = true -> infrared t')
                   /\ (is_red (Node a c k v p l r) = false -> inv_red t')
                   /\ (forall n, has_bh (Node a c k v p l r) n -> has_bh t' n)).
    { intros ->. destruct upd.
      - split; [|split].
        + intros X. apply inv_red_infrared; [apply inv_red_assign; exact R|].
          rewrite is_red_assign. exact X.
        + intros _. apply inv_red_assign. exact R.
        + intros n. apply has_bh_assign.
      - split; [|split]; auto. intros X. apply inv_red_infrared; auto. }
    destruct (try_insert_spec _ B fresh parent key value upd sz)
      as (res0 & t0 & sz0 & E0 & _ & Post).
    rewrite E in E0. injection E0 as <- <- <-.
    destruct Post as [(Nin & -> & _)|(_ & _ & _ & Es)]; [|exact (Same Es)].
    clear Same.
    destruct B as (Hl & Hr & Bl & Br). destruct R as (Rc & Rl & Rr).
    cbn [try_insert_key_val] in E.
    destruct (key <? k).
    + destruct (try_insert_key_val fresh (Some a) l key value upd sz)
        as [[[res1 l'] sz1]|] eqn:E1; cbn [bind] in E; [|discriminate].
      destruct (IHl Bl Rl _ _ _ _ _ _ _ _ _ E1) as (I1 & I2 & I3).
      destruct (Result_eqb res1 Inserted) eqn:Er.
      * destruct (insert_rebalance (Node a c k v p l' r) DIR_LEFT) as [t''|] eqn:Rb;
          cbn [bind] in E; [|discriminate].
        injection E as _ <- _.
        assert (Hred : c = Red -> is_red r = false /\ inv_red l').
        { intros X. destruct (Rc X) as [X1 X2]. auto. }
        destruct (insert_rebalance_red _ _ _ _ _ _ _ _ _ Rb Rr) as (C1 & C2).
        { intros _. destruct (is_red l) eqn:X; auto. }
        { exact Hred. }
        split; [|split].
        -- destruct c; cbn; [auto|discriminate].
        -- destruct c; cbn; [discriminate|auto].
        -- intros n H. eapply insert_rebalance_bh; eauto.
           inversion H; subst; constructor; auto.
      * injection E as -> _ _. discriminate.
    + destruct (key >? k).
      * destruct (try_insert_key_val fresh (Some a) r key value upd sz)
          as [[[res1 r'] sz1]|] eqn:E1; cbn [bind] in E; [|discriminate].
        destruct (IHr Br Rr _ _ _ _ _ _ _ _ _ E1) as (I1 & I2 & I3).
        destruct (Result_eqb res1 Inserted) eqn:Er.
        -- destruct (insert_rebalance (Node a c k v p l r') DIR_RIGHT) as [t''|] eqn:Rb;
             cbn [bind] in E; [|discriminate].
           injection E as _ <- _.
           assert (Hred : c = Red -> is_red l = false /\ inv_red r').
           { intros X. destruct (Rc X) as [X1 X2]. auto. }
           destruct (insert_rebalance_red _ _ _ _ _ _ _ _ _ Rb Rl) as (C1 & C2).
           { intros _. destruct (is_red r) eqn:X; auto. }
           { exact Hred. }
           split; [|split].
           ++ destruct c; cbn; [auto|discriminate].
           ++ destruct c; cbn; [discriminate|auto].
           ++ intros n H. eapply insert_rebalance_bh; eauto.
              inversion H; subst; constructor; auto.
        -- injection E as -> _ _. discriminate.
      * destruct upd; injection E as E _ _; discriminate.
Qed.

Lemma insert_invariants_step (T : RBTree V) upd fresh key value :
  all_invariants T ->
  NoDup (addrs (m_root T)) -> ~ In fresh (addrs (m_root T)) ->
  m_size T < size_max - 1 ->
  exists res T',
    insert_with upd fresh T key value = Some (res, T')
    /\ all_invariants T' /\ NoDup (addrs (m_root T')).
Proof.
  intros (B & R & (n & H) & Rb & P & Sz) N Hf Hs.
  destruct (insert_with_spec T B upd fresh key value) as (res & T' & E & _ & Post).
  exists res, T'. split; [exact E|].
  destruct (insert_with_wf T upd fresh key value res T' E B P N Sz Hs Hf)
    as (B' & P' & N' & Sz' & _).
  split; [|exact N']. unfold all_invariants. split; [exact B'|].
  cut (inv_red (m_root T') /\ inv_black_height (m_root T')
       /\ inv_root_black (m_root T')); [tauto|].
  unfold insert_with in E.
  destruct (try_insert_key_val fresh None (m_root T) key value upd (m_size T))
    as [[[res1 t1] sz1]|] eqn:E1; cbn [bind] in E; [|discriminate].
  destruct (try_insert_colors _ B R _ _ _ _ _ _ _ _ _ E1) as (C1 & C2 & C3).
  assert (Rt : is_red (m_root T) = false).
  { destruct (m_root T) as [|a c k v p l r]; [reflexivity|]. cbn in Rb. subst c.
    reflexivity. }
  specialize (C2 Rt). specialize (C3 n H).
  destruct (Result_eqb res1 Inserted) eqn:Er.
  - destruct t1 as [|a c k v p l r]; cbn in E; [discriminate|].
    injection E as _ <-. cbn [m_root].
    destruct C2 as (_ & Rl & Rr). split; [|split].
    + cbn. split; [discriminate|auto].
    + inversion C3; subst; eexists; constructor; eauto.
    + reflexivity.
  - injection E as -> <-. cbn [m_root].
    split; [exact C2|]. split; [exists n; exact C3|].
    destruct Post as [(_ & -> & _)|(_ & _ & _ & Es)]; [discriminate|].
    cbn [m_root] in Es. rewrite Es.
    destruct upd; [|exact Rb].
    destruct (m_root T) as [|a c k v p l r]; [exact I|]. exact Rb.
Qed.

(** X20. An insertion, strict or updating, at an address no live node has
    and without wrap-around of the size counter, never fails and keeps the
    six invariants of the data model. *)
Theorem insert_preserves_invariants (T : RBTree V) upd fresh key value :
  all_invariants T ->
  NoDup (addrs (m_root T)) -> ~ In fresh (addrs (m_root T)) ->
  m_size T < size_max - 1 ->
  exists res T',
    insert_with upd fresh T key value = Some (res, T')
    /\ all_invariants T' /\ NoDup (addrs (m_root T')).
Proof.
  exact (insert_invariants_step T upd fresh key value).
Qed.

(** * Further properties of the code *)

(** ** Rotations and rebalancing on arbitrary trees *)

(** X1. [single_rotation] needs a node and, on the side opposite to the
    rotation, a child; anything else is a null dereference.  With both, the
    child becomes the root of the subtree, black, and takes over the parent
    link of the old root; the old root becomes its red child on the side of
    the rotation; the inorder sequence of the nodes is the same, and parent
    links that were right stay right. *)
Theorem single_rotation_spec root dir :
  match root, child root (opp dir) with
  | Node a _ _ _ p _ _, Some (Node sa _ _ _ _ _ _) =>
      exists t',
        single_rotation root dir = Some t'
        /\ elements t' = elements root
        /\ get t' = Some sa /\ get_color t' = Some Black
        /\ get_parent t' = Some p
        /\ (exists old,
              child t' dir = Some old /\ get old = Some a
              /\ get_color old = Some Red /\ get_parent old = Some (Some sa))
        /\ (forall e, parents_ok root e -> parents_ok t' e)
  | _, _ => single_rotation root dir = None
  end.
Proof.
  destruct root as [|a c k v p l r]; [reflexivity|].
  destruct dir; cbn [opp child].
  - destruct r as [|sa sc sk sv sp sl sr]; [reflexivity|].
    eexists. split; [reflexivity|]. cbn.
    split; [list_norm; rewrite elements_reparent; reflexivity|].
    repeat (split; [reflexivity|]). split.
    + eexists. repeat split.
    + intros e (-> & Pl & _ & Psl & Psr). repeat split; auto.
      eapply parents_ok_reparent. exact Psl.
  - destruct l as [|sa sc sk sv sp sl sr]; [reflexivity|].
    eexists. split; [reflexivity|]. cbn.
    split; [list_norm; rewrite elements_reparent; reflexivity|].
    repeat (split; [reflexivity|]). split.
    + eexists. repeat split.
    + intros e (-> & (_ & Psl & Psr) & Pr). repeat split; auto.
      eapply parents_ok_reparent. exact Psr.
Qed.

(** X2. [double_rotation] needs a node, its child opposite to the rotation
    and that child's child on the side of the rotation; anything else is a
    null dereference.  With the three, the grandchild becomes the root of the
    subtree, black, with the parent link of the old root; the inorder
    sequence is the same and right parent links stay right. *)
Theorem double_rotation_spec root dir :
  match root, child root (opp dir) with
  | Node _ _ _ _ p _ _, Some c =>
      match child c dir with
      | Some (Node ga _ _ _ _ _ _) =>
          exists t',
            double_rotation root dir = Some t'
            /\ elements t' = elements root
            /\ get t' = Some ga /\ get_color t' = Some Black
            /\ get_parent t' = Some p
            /\ (forall e, parents_ok root e -> parents_ok t' e)
      | _ => double_rotation root dir = None
      end
  | _, _ => double_rotation root dir = None
  end.
Proof.
  destruct root as [|a c k v p l r]; [reflexivity|].
  unfold double_rotation, single_rotation.
  destruct dir; cbn [opp child bind].
  - destruct r as [|sa sc sk sv sp sl sr]; [reflexivity|]. cbn [child].
    destruct sl as [|ga gc gk gv gp gl gr]; [reflexivity|].
    eexists. split; [reflexivity|]. cbn.
    split; [list_norm; rewrite !elements_reparent; reflexivity|].
    repeat (split; [reflexivity|]).
    intros e (-> & Pl & _ & (_ & Pgl & Pgr) & Psr). repeat split; auto;
      eapply parents_ok_reparent; eauto.
  - destruct l as [|sa sc sk sv sp sl sr]; [reflexivity|]. cbn [child].
    destruct sr as [|ga gc gk gv gp gl gr]; [reflexivity|].
    eexists. split; [reflexivity|]. cbn.
    split; [list_norm; rewrite !elements_reparent; reflexivity|].
    repeat (split; [reflexivity|]).
    intros e (-> & (_ & Psl & _ & Pgl & Pgr) & Pr). repeat split; auto;
      eapply parents_ok_reparent; eauto.
Qed.

(** X3. On any node, whatever the colors below it, [insert_rebalance] never
    dereferences a null pointer; it keeps the inorder sequence of the nodes
    and right parent links. *)
Theorem insert_rebalance_never_fails root dir :
  is_null root = false ->
  exists t',
    insert_rebalance root dir = Some t'
    /\ is_null t' = false
    /\ elements t' = elements root
    /\ (forall e, parents_ok root e -> parents_ok t' e).
Proof.
  intros Hn. destruct (insert_rebalance_total root dir Hn) as (t' & E & N & El).
  exists t'. repeat split; auto.
  intros e. eapply insert_rebalance_parents. exact E.
Qed.

(** X4. On any node, whatever the colors below it, [remove_rebalance] never
    dereferences a null pointer; it keeps the inorder sequence of the nodes
    and right parent links. *)
Theorem remove_rebalance_never_fails root dir :
  is_null root = false ->
  exists t' d,
    remove_rebalance root dir = Some (t', d)
    /\ is_null t' = false
    /\ elements t' = elements root
    /\ (forall e, parents_ok root e -> parents_ok t' e).
Proof.
  intros Hn. destruct (remove_rebalance_total root dir Hn) as (t' & d & E & N & El).
  exists t', d. repeat split; auto.
  intros e. eapply remove_rebalance_parents. exact E.
Qed.

(** ** The operations never fail *)




(** ** The removal fixup away from the red-sibling case *)

(** X6. When the sibling of the subtree that lost a black node is black,
    [remove_rebalance] does what the removal needs: no red node gets a red
    child, and either the deficit is resolved ([is_done], the subtree has
    the black height it had before the removal) or, only under a black
    node, it is handed to the parent (the subtree is black-rooted and one
    short).  A black node never comes back red. *)
Theorem remove_rebalance_black_sibling a c k v p l r dir n :
  has_bh (match dir with DIR_LEFT => l | DIR_RIGHT => r end) n ->
  has_bh (match dir with DIR_LEFT => r | DIR_RIGHT => l end) (S n) ->
  is_red (match dir with DIR_LEFT => r | DIR_RIGHT => l end) = false ->
  inv_red l -> inv_red r ->
  exists t' d,
    remove_rebalance (Node a c k v p l r) dir = Some (t', d)
    /\ inv_red t'
    /\ has_bh t' (if d then (if color_is_red c then S n else S (S n)) else S n)
    /\ (d = false -> c = Black)
    /\ (c = Black -> is_red t' = false).
Proof.
  intros Hd Hs Hr Il Ir.
  unfold remove_rebalance, double_rotation, single_rotation.
  destruct dir, c; unfold_ptr; cbn in *;
    repeat (break_match; cbn in *);
    try discriminate; invert_bh;
    (do 2 eexists; split; [reflexivity|]);
    cbn;
    (split; [crush_red|]);
    (split; [repeat constructor; assumption|]);
    (split; intros; congruence).
Qed.

(** X7. Removing the key of a node with at most one child: the child takes
    the place of the node and its parent link.  After a red node, or a black
    node with a red child (which turns black), the black height is what it
    was and [is_done] is set; after a black node with no red child the place
    is empty, one black node is missing and [is_done] is left as it came in,
    for the ancestors to repair. *)
Theorem remove_node_with_one_child a c key v p l r n done sz :
  is_null l || is_null r = true ->
  has_bh (Node a c key v p l r) n ->
  inv_red (Node a c key v p l r) ->
  exists t',
    try_remove_key (Node a c key v p l r) done key sz
    = Some (t', color_is_red c || is_red (if is_null l then r else l) || done,
            Some v, size_decr sz, 0%nat)
    /\ elements t' = elements l ++ elements r
    /\ (is_null t' = false -> get_parent t' = Some p)
    /\ inv_red t'
    /\ (color_is_red c || is_red (if is_null l then r else l) = true ->
        has_bh t' n)
    /\ (color_is_red c || is_red (if is_null l then r else l) = false ->
        t' = Leaf /\ n = 1%nat).
Proof.
  intros N B R. cbn [try_remove_key]. rewrite Z.eqb_refl, N.
  destruct l as [|la lc lk lv lp ll lr], r as [|ra rc rk rv rp rl rr];
    try discriminate N; destruct c; cbn in *;
    try (destruct lc); try (destruct rc); cbn in *;
    invert_bh;
    (eexists; split; [reflexivity|]);
    cbn; rewrite ?app_nil_r;
    repeat match goal with |- _ /\ _ => split end;
    try reflexivity; try (intros; discriminate); try (intros; reflexivity);
    try (intros; repeat constructor; assumption);
    try (intros; split; reflexivity);
    crush_red.
Qed.

(** ** Lookup against the bindings of the container *)

Lemma sorted_NoDup (l : list Z) : StronglySorted Z.lt l -> NoDup l.
Proof.
  induction 1 as [|x l S IH F]; constructor; auto.
  intros X. rewrite Forall_forall in F. apply F in X. lia.
Qed.

Lemma assoc_In key (v : V) (l : list (K * V)) :
  NoDup (map fst l) -> (assoc key l = Some v <-> In (key, v) l).
Proof.
  induction l as [|[k w] l IH]; simpl; intros N.
  - split; [discriminate|tauto].
  - inversion N as [|? ? Nk Nl]; subst. destruct (Z.eqb_spec k key).
    + subst k. split.
      * intros E. injection E as ->. auto.
      * intros [E|E]; [congruence|].
        exfalso. apply Nk. apply (in_map fst) in E. exact E.
    + rewrite (IH Nl). split; [auto|]. intros [E|E]; [congruence|exact E].
Qed.

Lemma filter_other_keys key (l : list (K * V)) :
  ~ In key (map fst l) -> filter (fun kv => negb (fst kv =? key)) l = l.
Proof.
  induction l as [|[k w] l IH]; simpl; intros N; [reflexivity|].
  destruct (Z.eqb_spec k key); [exfalso; apply N; auto|].
  simpl. rewrite IH; auto.
Qed.

Lemma assoc_filter key k' (l : list (K * V)) :
  k' <> key ->
  assoc k' (filter (fun kv => negb (fst kv =? key)) l) = assoc k' l.
Proof.
  intros Hk. induction l as [|[k w] l IH]; simpl; [reflexivity|].
  destruct (Z.eqb_spec k key); simpl.
  - destruct (Z.eqb_spec k k'); [congruence|exact IH].
  - destruct (k =? k'); [reflexivity|exact IH].
Qed.

Lemma remove_full_spec (T : RBTree V) key :
  inv_bst (m_root T) ->
  exists T',
    remove T key = Some (find T key, T')
    /\ inv_bst (m_root T')
    /\ kvs (m_root T')
       = filter (fun kv => negb (fst kv =? key)) (kvs (m_root T))
    /\ m_size T' = match find T key with
                   | Some _ => size_decr (m_size T)
                   | None => m_size T
                   end.
Proof.
  intros B. destruct (in_dec Z.eq_dec key (keys (m_root T))) as [Hin|Nin].
  - destruct (remove_spec T key B Hin)
      as (v & T' & E & F & Sz & B' & N' & kpre & kpost & K1 & K2).
    exists T'. rewrite F. repeat split; auto.
    rewrite K1, K2, filter_app. simpl. rewrite Z.eqb_refl. simpl.
    assert (S1 : StronglySorted Z.lt (keys (m_root T)))
      by (apply inv_bst_sorted; exact B).
    rewrite keys_kvs, K1, map_app in S1. simpl in S1.
    apply sorted_app_iff in S1. destruct S1 as (_ & _ & F1 & F2).
    rewrite !filter_other_keys; auto.
    + intros X. rewrite Forall_forall in F2. apply F2 in X. lia.
    + intros X. rewrite Forall_forall in F1. apply F1 in X. lia.
  - exists T. unfold find. rewrite (find_absent _ _ B Nin). repeat split; auto.
    + unfold remove. rewrite (try_remove_absent _ _ Nin). cbn [bind].
      destruct T; reflexivity.
    + rewrite filter_other_keys; auto. rewrite <- keys_kvs. exact Nin.
Qed.

(** X8. In a search tree, [find] returns a value exactly when the key is
    bound to it in some node, and absence exactly when no node has the
    key. *)
Theorem find_iff_binding (T : RBTree V) (key : K) (v : V) :
  inv_bst (m_root T) ->
  (find T key = Some v <-> In (key, v) (kvs (m_root T)))
  /\ (find T key = None <-> ~ In key (keys (m_root T))).
Proof.
  intros B. unfold find. rewrite find_assoc by exact B. split.
  - apply assoc_In. rewrite <- keys_kvs. apply sorted_NoDup, inv_bst_sorted, B.
  - rewrite assoc_none, <- keys_kvs. tauto.
Qed.

(** X9. In a search tree, an insertion, strict or not, changes nothing to
    what [find] returns for the other keys. *)
Theorem insert_keeps_other_keys (T : RBTree V) upd fresh key value k' :
  inv_bst (m_root T) ->
  k' <> key ->
  exists res T',
    insert_with upd fresh T key value = Some (res, T')
    /\ find T' k' = find T k'.
Proof.
  intros B Hk.
  destruct (insert_with_spec T B upd fresh key value) as (res & T' & E & B' & Post).
  exists res, T'. split; [exact E|]. unfold find.
  destruct Post as [(_ & _ & _ & pre & post & E1 & E2 & _)|(_ & _ & _ & Es)].
  - rewrite !find_assoc by assumption. unfold kvs. rewrite E1, E2, !map_app.
    cbn [map]. rewrite !assoc_app. cbn [assoc kv_of fst snd].
    destruct (Z.eqb_spec key k'); [congruence|reflexivity].
  - rewrite Es. destruct upd; [|reflexivity].
    rewrite try_find_assign. destruct (Z.eqb_spec k' key); [contradiction|reflexivity].
Qed.

(** X10. In a search tree, [remove] returns what [find] returned for the
    key, whether present or absent; the bindings left are exactly the other
    ones, in the same order, so that [find] is unchanged for the other keys;
    the size counter is decremented exactly when the key was present. *)
Theorem remove_returns_binding (T : RBTree V) (key : K) :
  inv_bst (m_root T) ->
  exists T',
    remove T key = Some (find T key, T')
    /\ kvs (m_root T')
       = filter (fun kv => negb (fst kv =? key)) (kvs (m_root T))
    /\ (forall k', k' <> key -> find T' k' = find T k')
    /\ m_size T' = match find T key with
                   | Some _ => size_decr (m_size T)
                   | None => m_size T
                   end.
Proof.
  intros B. destruct (remove_full_spec T key B) as (T' & E & B' & Kv & Sz).
  exists T'. repeat split; auto.
  intros k' Hk. unfold find. rewrite !find_assoc by assumption.
  rewrite Kv. apply assoc_filter. exact Hk.
Qed.

(** X11. In a search tree without the key, inserting a binding and then
    removing the key gives back the value just inserted and leaves the
    bindings and the size as they were before the two calls (the shape and
    the colors of the tree may differ). *)
Theorem insert_then_remove (T : RBTree V) fresh key value :
  inv_bst (m_root T) ->
  ~ In key (keys (m_root T)) ->
  0 <= m_size T < size_max - 1 ->
  exists T1 T2,
    insert fresh T key value = Some (Inserted, T1)
    /\ remove T1 key = Some (Some value, T2)
    /\ kvs (m_root T2) = kvs (m_root T)
    /\ m_size T2 = m_size T.
Proof.
  intros B Nin Hs.
  destruct (insert_with_spec T B false fresh key value) as (res & T1 & E & B1 & Post).
  destruct Post as [(_ & -> & Sz1 & pre & post & E1 & E2 & F1 & F2)|(Hin & _)];
    [|contradiction].
  destruct (remove_full_spec T1 key B1) as (T2 & E' & B2 & Kv & Sz2).
  assert (F : find T1 key = Some value) by (unfold find; eapply find_at; eauto).
  rewrite F in E', Sz2.
  exists T1, T2. split; [exact E|]. split; [exact E'|]. split.
  - rewrite Kv. unfold kvs. rewrite E1, E2, !map_app. cbn [map].
    rewrite filter_app. cbn [filter kv_of fst snd]. rewrite Z.eqb_refl. cbn [negb].
    rewrite !filter_other_keys; auto; rewrite map_fst_kv; intros X.
    + rewrite Forall_forall in F2. apply in_map_iff in X.
      destruct X as (e & <- & He). apply F2 in He. lia.
    + rewrite Forall_forall in F1. apply in_map_iff in X.
      destruct X as (e & <- & He). apply F1 in He. lia.
  - rewrite Sz2, Sz1, size_incr_small by exact Hs.
    rewrite size_decr_small; unfold size_max in *; lia.
Qed.

(** ** Preorder and postorder traversal *)

Section VisitOrders.
Variable S : Type.
Variable visitor : K -> V -> S -> bool * S.

Lemma visit_preorder_list t (s : S) :
  visit_preorder visitor t s = visit_list visitor (preorder t) s.
Proof.
  revert s. induction t as [|a c k v p l IHl r IHr]; intros s; [reflexivity|].
  cbn [visit_preorder preorder visit_list].
  destruct (visitor k v s) as [b s1]. destruct b; cbn [negb]; [|reflexivity].
  rewrite visit_list_app, IHl.
  destruct (visit_list visitor (preorder l) s1) as [b s2].
  destruct b; cbn [negb]; auto.
Qed.

Lemma visit_postorder_list t (s : S) :
  visit_postorder visitor t s = visit_list visitor (postorder t) s.
Proof.
  revert s. induction t as [|a c k v p l IHl r IHr]; intros s; [reflexivity|].
  cbn [visit_postorder postorder].
  rewrite visit_list_app, IHl.
  destruct (visit_list visitor (postorder l) s) as [b s1].
  destruct b; cbn [negb]; [|reflexivity].
  rewrite visit_list_app, IHr.
  destruct (visit_list visitor (postorder r) s1) as [b s2].
  destruct b; cbn [negb]; [|reflexivity].
  cbn [visit_list]. destruct (visitor k v s2) as [b s3]. destruct b; reflexivity.
Qed.

End VisitOrders.

Lemma visit_list_stop (S : Type) (visitor : K -> V -> S -> bool * S)
    (l : list (K * V)) (s : S) :
  exists b s' log rest,
    visit_list (traced visitor) l (s, []) = (b, (s', log))
    /\ visit_list visitor l s = (b, s')
    /\ map fst l = map fst log ++ rest
    /\ (forall k, In (k, false) log ->
        b = false /\ exists pre, log = pre ++ [(k, false)])
    /\ ((forall k, ~ In (k, false) log) -> b = true /\ rest = []).
Proof.
  destruct (visit_list_traced S visitor l s [])
    as (b & s' & new & rest & E1 & E2 & E3 & E4 & E5).
  exists b, s', new, rest.
  split; [exact E1|]. split; [exact E2|]. split; [exact E3|]. split.
  - intros k Hin. destruct b.
    + destruct (E4 eq_refl) as (_ & F). rewrite Forall_forall in F.
      apply F in Hin. discriminate.
    + split; auto. destruct (E5 eq_refl) as (pre & k' & -> & F).
      apply in_app_or in Hin. destruct Hin as [Hin|[Hin|[]]].
      * rewrite Forall_forall in F. apply F in Hin. discriminate.
      * injection Hin as ->. eauto.
  - intros Hn. destruct b.
    + split; auto. apply E4; auto.
    + destruct (E5 eq_refl) as (pre & k' & -> & F).
      exfalso. apply (Hn k'). apply in_or_app. right. left. reflexivity.
Qed.

Lemma preorder_perm t : Permutation (preorder t) (kvs t).
Proof.
  induction t as [|a c k v p l IHl r IHr]; [constructor|].
  rewrite kvs_node. cbn [preorder].
  apply Permutation_cons_app. apply Permutation_app; assumption.
Qed.

Lemma postorder_perm t : Permutation (postorder t) (kvs t).
Proof.
  induction t as [|a c k v p l IHl r IHr]; [constructor|].
  rewrite kvs_node. cbn [postorder].
  rewrite app_assoc. eapply Permutation_trans.
  - apply Permutation_sym. apply Permutation_cons_append.
  - apply Permutation_cons_app. apply Permutation_app; assumption.
Qed.

(** X12. [visit_preorder] calls the visitor on a node before the nodes of
    its left and then of its right subtree.  On any tree and for any visitor
    the calls follow that sequence, which has the bindings of the inorder
    sequence, each once: a call that answers stop is the last one, and when
    no call answers stop every binding has been visited and the traversal
    returns true. *)
Theorem visit_preorder_spec t (S : Type) (visitor : K -> V -> S -> bool * S)
    (s : S) :
  Permutation (preorder t) (kvs t)
  /\ hd_error (preorder t)
     = match t with Leaf => None | Node _ _ k v _ _ _ => Some (k, v) end
  /\ exists b s' log rest,
      visit_preorder (traced visitor) t (s, []) = (b, (s', log))
      /\ visit_preorder visitor t s = (b, s')
      /\ map fst (preorder t) = map fst log ++ rest
      /\ (forall k, In (k, false) log ->
          b = false /\ exists pre, log = pre ++ [(k, false)])
      /\ ((forall k, ~ In (k, false) log) -> b = true /\ rest = []).
Proof.
  split; [apply preorder_perm|]. split; [destruct t; reflexivity|].
  rewrite !visit_preorder_list. apply visit_list_stop.
Qed.

(** X13. [visit_postorder] calls the visitor on a node after the nodes of
    its left and then of its right subtree, with the same contract: the
    calls follow the postorder sequence, which has the bindings of the
    inorder sequence, each once; a stop is the last call; without a stop
    every binding is visited and the traversal returns true. *)
Theorem visit_postorder_spec t (S : Type) (visitor : K -> V -> S -> bool * S)
    (s : S) :
  Permutation (postorder t) (kvs t)
  /\ last_error (postorder t)
     = match t with Leaf => None | Node _ _ k v _ _ _ => Some (k, v) end
  /\ exists b s' log rest,
      visit_postorder (traced visitor) t (s, []) = (b, (s', log))
      /\ visit_postorder visitor t s = (b, s')
      /\ map fst (postorder t) = map fst log ++ rest
      /\ (forall k, In (k, false) log ->
          b = false /\ exists pre, log = pre ++ [(k, false)])
      /\ ((forall k, ~ In (k, false) log) -> b = true /\ rest = []).
Proof.
  split; [apply postorder_perm|]. split.
  - destruct t as [|a c k v p l r]; [reflexivity|]. cbn [postorder].
    rewrite app_assoc. apply last_error_app.
  - rewrite !visit_postorder_list. apply visit_list_stop.
Qed.

(** ** Iterating over the container *)

Lemma split_unique_map {A B : Type} (f : A -> B) (x y : A) (l1 l2 m1 m2 : list A) :
  NoDup (map f (l1 ++ x :: l2)) ->
  l1 ++ x :: l2 = m1 ++ y :: m2 -> f x = f y ->
  l1 = m1 /\ x = y /\ l2 = m2.
Proof.
  revert m1. induction l1 as [|z l1 IH]; intros m1 N E F.
  - destruct m1 as [|w m1]; simpl in *.
    + injection E as -> ->. auto.
    + injection E as -> ->. inversion N; subst. exfalso. apply H1.
      rewrite map_app. apply in_or_app. right. left. symmetry. exact F.
  - destruct m1 as [|w m1]; simpl in *.
    + injection E as -> <-. inversion N; subst. exfalso. apply H1.
      rewrite map_app. apply in_or_app. right. left. exact F.
    + injection E as <- E. inversion N; subst.
      destruct (IH _ H2 E F) as (-> & -> & ->). auto.
Qed.

Lemma at_pos_elements h u pre post d :
  at_pos h u pre post d ->
  exists epre epost,
    elements h = epre ++ elements u ++ epost
    /\ map addr_of epre = pre /\ map addr_of epost = post.
Proof.
  induction 1 as [|a c k v p l r pre post d P IH|a c k v p l r pre post d P IH].
  - exists [], []. simpl. rewrite app_nil_r. auto.
  - destruct IH as (epre & epost & E & E1 & E2).
    exists epre, ((a, k, v) :: elements r ++ epost). split; [|split].
    + rewrite E. list_norm. reflexivity.
    + exact E1.
    + cbn [map]. rewrite map_app, E2. reflexivity.
  - destruct IH as (epre & epost & E & E1 & E2).
    exists (epre ++ elements l ++ [(a, k, v)]), epost. split; [|split].
    + rewrite E. list_norm. reflexivity.
    + rewrite !map_app, E1. reflexivity.
    + exact E2.
Qed.

(** The node at a place of the inorder sequence, its successor and its
    predecessor. *)
Lemma node_in_sequence h fuel E1 e E2 :
  inv_parents h -> NoDup (addrs h) -> (count h <= fuel)%nat ->
  elements h = E1 ++ e :: E2 ->
  (exists c p l r,
      lookup h (addr_of e) = Some (Node (addr_of e) c (key_of e) (snd e) p l r))
  /\ next_node fuel h (Some (addr_of e)) = Some (hd_error (map addr_of E2))
  /\ prev_node fuel h (Some (addr_of e)) = Some (last_error (map addr_of E1)).
Proof.
  intros P N Hf E. destruct e as [[a k0] v0]. cbn [addr_of key_of fst snd].
  assert (Hin : In a (addrs h)).
  { unfold addrs. rewrite E. rewrite map_app. apply in_or_app. right. left.
    reflexivity. }
  destruct (in_addrs_at_pos _ _ Hin) as (c & k & v & p & l & r & pre & post & d & A).
  destruct (at_pos_elements _ _ _ _ _ A) as (epre & epost & Ee & Ep1 & Ep2).
  cbn [elements] in Ee.
  assert (Ee' : elements h = (epre ++ elements l) ++ (a, k, v)
                             :: (elements r ++ epost)).
  { rewrite Ee. list_norm. reflexivity. }
  assert (N' := N). unfold addrs in N'. rewrite E in N'. rewrite E in Ee'.
  destruct (split_unique_map addr_of _ _ _ _ _ _ N' Ee' eq_refl) as (X1 & X2 & X3).
  injection X2 as -> ->. subst E1 E2.
  split; [|split].
  - exists c, p, l, r.
    exact (lookup_subtree _ _ (at_pos_subtree _ _ _ _ _ A) _ _ _ _ _ _ _ eq_refl N).
  - rewrite (next_node_spec _ _ _ _ _ _ _ _ _ _ _ fuel A N P Hf).
    rewrite map_app, Ep2. reflexivity.
  - rewrite (prev_node_spec _ _ _ _ _ _ _ _ _ _ _ fuel A N P Hf).
    rewrite map_app, Ep1. reflexivity.
Qed.

Lemma range_for_from (T : RBTree V) fuel :
  inv_parents (m_root T) -> NoDup (addrs (m_root T)) ->
  (count (m_root T) <= fuel)%nat ->
  forall E2 E1 e out steps,
  elements (m_root T) = E1 ++ e :: E2 ->
  (length E2 + 1 < steps)%nat ->
  range_for steps fuel T (Some (addr_of e)) out
  = Some (out ++ map kv_of (e :: E2)).
Proof.
  intros P N Hf. induction E2 as [|e' E2 IH]; intros E1 e out steps E Hs;
    (destruct steps as [|steps]; [simpl in Hs; lia|]);
    destruct (node_in_sequence _ fuel _ _ _ P N Hf E)
      as ((c & p & l & r & L) & Nx & _);
    cbn [range_for iter_eqb end_ ptr_eqb negb];
    unfold iter_deref, iter_incr; cbn [bind]; rewrite L, Nx; cbn [bind map hd_error].
  - destruct steps as [|steps]; [simpl in Hs; lia|]. cbn. reflexivity.
  - rewrite (IH (E1 ++ [e]) e' _ steps).
    + rewrite <- app_assoc. destruct e as [[a k] v]. reflexivity.
    + rewrite E, <- app_assoc. reflexivity.
    + simpl in Hs. lia.
Qed.

(** X14. In a tree with right parent links and distinct node addresses, the
    iterator loop from [begin()] to [end()] (a range-based [for]), given
    fuel and steps for the number of nodes, terminates and yields the
    bindings of the inorder sequence, in that order: what [visit_inorder]
    visits.  On the empty container it yields nothing. *)
Theorem range_for_inorder (T : RBTree V) (steps fuel : nat) :
  inv_parents (m_root T) -> NoDup (addrs (m_root T)) ->
  (count (m_root T) <= fuel)%nat -> (count (m_root T) < steps)%nat ->
  range_for steps fuel T (begin_ T) [] = Some (kvs (m_root T)).
Proof.
  intros P N Hf Hs. unfold begin_. rewrite find_min_head. unfold addrs, kvs.
  rewrite count_elements in Hs.
  destruct (elements (m_root T)) as [|e E2] eqn:E.
  - destruct steps; [lia|]. reflexivity.
  - cbn [map hd_error].
    rewrite (range_for_from T fuel P N Hf E2 [] e [] steps); [reflexivity|exact E|].
    simpl in Hs. lia.
Qed.

(** X15. In a tree with right parent links and distinct node addresses, an
    iterator at a node can retreat: from the first node, the one [begin()]
    points to, [operator--] leads to the end position; from any other node
    it leads to a node from which [operator++] leads back. *)
Theorem iterator_retreat_advance (T : RBTree V) (fuel : nat) (a : addr) :
  inv_parents (m_root T) -> NoDup (addrs (m_root T)) ->
  (count (m_root T) <= fuel)%nat ->
  In a (addrs (m_root T)) ->
  exists prev,
    iter_decr fuel T (Some a) = Some prev
    /\ (prev = end_ T <-> begin_ T = Some a)
    /\ (forall b, prev = Some b -> iter_incr fuel T (Some b) = Some (Some a)).
Proof.
  intros P N Hf Hin. unfold addrs in Hin. apply in_map_iff in Hin.
  destruct Hin as (e & <- & He). apply in_split in He.
  destruct He as (E1 & E2 & E).
  destruct (node_in_sequence _ fuel _ _ _ P N Hf E) as (_ & _ & Pv).
  exists (last_error (map addr_of E1)). split; [exact Pv|].
  unfold begin_, end_. rewrite find_min_head. unfold addrs at 1. rewrite E.
  destruct (rev E1) as [|b R] eqn:Er.
  - apply (f_equal (@rev _)) in Er. rewrite rev_involutive in Er. cbn in Er.
    subst E1. cbn. split; [tauto|]. intros b X. discriminate.
  - apply (f_equal (@rev _)) in Er. rewrite rev_involutive in Er. cbn in Er.
    subst E1. rewrite !map_app. cbn [map]. rewrite last_error_app. split.
    + split; [discriminate|]. intros X. exfalso.
      unfold addrs in N. rewrite E in N. rewrite !map_app in N. cbn [map] in N.
      destruct (map addr_of (rev R)) as [|x xs] eqn:Em; cbn in X, N.
      * injection X as X. apply NoDup_cons_iff in N. destruct N as [N _].
        apply N. left. symmetry. exact X.
      * injection X as X. subst x. apply NoDup_cons_iff in N. destruct N as [N _].
        apply N. apply in_or_app. right. left. reflexivity.
    + intros b' X. injection X as <-.
      assert (E' : elements (m_root T) = rev R ++ b :: (e :: E2)).
      { rewrite E, <- app_assoc. reflexivity. }
      destruct (node_in_sequence _ fuel _ _ _ P N Hf E') as (_ & Nx & _).
      exact Nx.
Qed.

Lemma find_min_node l :
  is_null l = false ->
  exists a c k v p r post,
    find_min l = Node a c k v p Leaf r
    /\ elements l = (a, k, v) :: post.
Proof.
  induction l as [|a c k v p l0 IHl r0 IHr]; intros Hn; [discriminate|].
  simpl. destruct l0 as [|la lc lk lv lp ll lr].
  - exists a, c, k, v, p, r0, (elements r0). split; reflexivity.
  - destruct IHl as (pa & pc & pk & pv & pp & pr & post & E1 & E2); [reflexivity|].
    exists pa, pc, pk, pv, pp, pr, (post ++ (a, k, v) :: elements r0).
    split; [exact E1|]. rewrite E2. reflexivity.
Qed.

(** X16. In a non-empty search tree with distinct node addresses,
    [begin()] points to the leftmost node, which has no left child and holds
    the minimum key; dereferencing [begin()] gives that key and its value,
    the first binding of the inorder sequence. *)
Theorem begin_is_minimum (T : RBTree V) :
  inv_bst (m_root T) -> NoDup (addrs (m_root T)) -> is_empty T = false ->
  exists a c k v p r,
    find_min (m_root T) = Node a c k v p Leaf r
    /\ begin_ T = Some a
    /\ iter_deref T (begin_ T) = Some (k, v)
    /\ hd_error (kvs (m_root T)) = Some (k, v)
    /\ forall k', In k' (keys (m_root T)) -> k <= k'.
Proof.
  intros B N Hn. unfold is_empty in Hn.
  destruct (find_min_node _ Hn) as (a & c & k & v & p & r & post & F1 & F2).
  exists a, c, k, v, p, r. split; [exact F1|].
  assert (Eb : begin_ T = Some a) by (unfold begin_; rewrite F1; reflexivity).
  split; [exact Eb|]. split; [|split].
  - rewrite Eb. unfold iter_deref. cbn [bind].
    assert (S : subtree (Node a c k v p Leaf r) (m_root T)).
    { rewrite <- F1. clear. induction (m_root T) as [|a c k v p l IHl r IHr].
      - apply sub_here.
      - simpl. destruct l; [apply sub_here|]. apply sub_left. exact IHl. }
    rewrite (lookup_subtree _ _ S _ _ _ _ _ _ _ eq_refl N). reflexivity.
  - unfold kvs. rewrite F2. reflexivity.
  - intros k' Hk. apply inv_bst_sorted in B. unfold keys in *. rewrite F2 in *.
    cbn [map] in *. inversion B; subst. destruct Hk as [<-|Hk]; [cbn; lia|].
    rewrite Forall_forall in H2. apply H2 in Hk. cbn in *. lia.
Qed.

(** ** Validation of the containers a client can build *)

Lemma validate_iff_checks (T : RBTree V) :
  validate T = true <-> validate_checks T.
Proof.
  unfold validate, validate_checks, is_empty, size.
  destruct (m_root T) as [|a c k v p l r] eqn:Er; cbn [is_null].
  - rewrite Z.eqb_eq. split; [auto|]. intros [(_ & X)|(X & _)]; congruence.
  - rewrite !andb_true_iff, negb_true_iff, Z.eqb_neq, validate_parents_ok.
    assert (Sp := validate_red_black_tree_spec (Node a c k v p l r)).
    destruct (validate_red_black_tree (Node a c k v p l r)) as [b h].
    split.
    + intros ((X & Y) & Z). right. split; [discriminate|].
      split; [exact X|]. split; [exact Y|].
      destruct b, h as [|n]; try contradiction; try discriminate.
      destruct Sp as (R & O & B).
      split; [exact R|]. split; [exists n; exact B|exact O].
    + intros [(X & _)|(_ & X & P & R & B & O)]; [discriminate|].
      split; [split; [exact X|exact P]|].
      destruct b, h as [|n]; try contradiction; try reflexivity.
      exfalso. apply Sp. split; [exact R|]. split; [exact O|exact B].
Qed.

Lemma built_invariants (T : RBTree V) :
  built_by_insertions T -> all_invariants T /\ NoDup (addrs (m_root T)).
Proof.
  induction 1 as [|T upd fresh key value res T' B IH Hf Hs E].
  - split; [|constructor]. unfold all_invariants. cbn.
    repeat split; auto. exists O. constructor.
  - destruct IH as (I & N).
    destruct (insert_invariants_step T upd fresh key value I N Hf Hs)
      as (res' & T'' & E' & I' & N').
    rewrite E in E'. injection E' as <- <-. auto.
Qed.

(** X17. A container built from the empty one by insertions alone, strict
    or updating, in any order of keys, each at an address no live node has
    and without wrap-around of the size counter, satisfies the six invariants
    of the data model, and [validate()] passes on it. *)
Theorem insertions_validate (T : RBTree V) :
  built_by_insertions T ->
  all_invariants T /\ NoDup (addrs (m_root T)) /\ validate T = true.
Proof.
  intros B. destruct (built_invariants T B) as (I & N).
  split; [exact I|]. split; [exact N|].
  apply validate_iff_checks. unfold validate_checks.
  destruct I as (Bs & R & H & _ & P & Sz). unfold inv_size in Sz.
  destruct (m_root T) as [|a c k v p l r] eqn:Er.
  - left. auto.
  - right. split; [discriminate|]. split; [rewrite Sz; simpl; lia|].
    split; [exact P|]. split; [exact R|]. split; [exact H|].
    apply inv_bst_local_order. exact Bs.
Qed.

(** X18. On a container built through the public operations, removals
    included, the assertions of [validate()] on the size, on the parent
    links and on the order of the keys never fire: [validate()] passes
    exactly when no red node has a red child and the black heights are
    equal. *)
Theorem reachable_validate (T : RBTree V) :
  reachable T ->
  (validate T = true <-> inv_red (m_root T) /\ inv_black_height (m_root T)).
Proof.
  intros R. destruct (reachable_invariants T R) as (B & P & _ & Sz & _).
  rewrite validate_iff_checks. unfold validate_checks, inv_size in *.
  destruct (m_root T) as [|a c k v p l r] eqn:Er.
  - split.
    + intros _. cbn. split; [exact I|]. exists O. constructor.
    + intros _. left. auto.
  - split.
    + intros [(X & _)|(_ & _ & _ & Rd & H & _)]; [discriminate|]. auto.
    + intros (Rd & H). right. split; [discriminate|].
      split; [rewrite Sz; simpl; lia|].
      split; [exact P|]. split; [exact Rd|]. split; [exact H|].
      apply inv_bst_local_order. exact B.
Qed.

(** ** The insertion fixup *)

(** X19. At a black node, [insert_rebalance] repairs a red child that has a
    red child of its own: when the other child and everything below the two
    children is free of red-red pairs, the subtree it returns has no red node
    with a red child, and the black height is unchanged. *)
Theorem insert_rebalance_repairs a k v p l r dir n :
  inv_red (match dir with DIR_LEFT => r | DIR_RIGHT => l end) ->
  inv_red (match dir with DIR_LEFT => l | DIR_RIGHT => r end)
  \/ infrared (match dir with DIR_LEFT => l | DIR_RIGHT => r end) ->
  has_bh (Node a Black k v p l r) n ->
  exists t',
    insert_rebalance (Node a Black k v p l r) dir = Some t'
    /\ inv_red t' /\ has_bh t' n.
Proof.
  intros Ro Rc H.
  destruct (insert_rebalance_total (Node a Black k v p l r) dir eq_refl)
    as (t' & E & _ & _).
  exists t'. split; [exact E|]. split.
  - destruct (insert_rebalance_red _ _ _ _ _ _ _ _ _ E Ro) as (C & _).
    + intros _. exact Rc.
    + discriminate.
    + apply C. reflexivity.
  - eapply insert_rebalance_bh; eauto. discriminate.
Qed.

End Proofs.

(** * The claims on concrete containers *)

Ltac solve_concrete :=
  cbn; repeat (first [split | constructor | lia | reflexivity | discriminate]).

(** C4 at the test scenario: removing the unknown key 42. *)
Lemma remove_absent_unchanged_witness :
  ~ In 42 (keys (m_root scenario_tree))
  /\ remove scenario_tree 42 = Some (None, scenario_tree).
Proof.
  assert (N : ~ In 42 (keys (m_root scenario_tree))).
  { cbn. intuition discriminate. }
  split; [exact N|].
  exact (proj1 (remove_absent_unchanged string scenario_tree 42 N)).
Defined.

Lemma scenario_bst : inv_bst (m_root scenario_tree).
Proof. solve_concrete. Qed.

Lemma scenario_parents : inv_parents (m_root scenario_tree).
Proof. solve_concrete. Qed.

Lemma scenario_NoDup : NoDup (addrs (m_root scenario_tree)).
Proof. cbn. repeat constructor; cbn; intuition discriminate. Qed.

(** C5 at the test scenario: key 1 is present. *)
Lemma insert_present_witness :
  inv_bst (m_root scenario_tree)
  /\ In 1 (keys (m_root scenario_tree))
  /\ insert 10 scenario_tree 1 "x"%string = Some (Failed, scenario_tree)
  /\ exists T',
      insert_or_update 10 scenario_tree 1 "x"%string = Some (Updated, T')
      /\ find T' 1 = Some "x"%string
      /\ find T' 8 = Some "a"%string.
Proof.
  assert (H : In 1 (keys (m_root scenario_tree))) by (cbn; tauto).
  destruct (insert_present string scenario_tree 10 1 "x"%string scenario_bst H)
    as (A & B & C & D).
  split; [exact scenario_bst|]. split; [exact H|]. split; [exact A|].
  eexists. split; [exact B|]. split; [exact C|].
  rewrite D by discriminate. reflexivity.
Defined.

(** C7 at the test scenario: key 20 is absent, key 1 is present. *)
Lemma insert_size_witness :
  inv_bst (m_root scenario_tree)
  /\ 0 <= m_size scenario_tree < size_max - 1
  /\ exists res T',
      insert_with false 10 scenario_tree 20 "hello"%string = Some (res, T')
      /\ (res = Inserted <-> ~ In 20 (keys (m_root scenario_tree)))
      /\ (res = Inserted -> m_size T' = m_size scenario_tree + 1)
      /\ (res = Updated \/ res = Failed -> m_size T' = m_size scenario_tree).
Proof.
  assert (H : 0 <= m_size scenario_tree < size_max - 1).
  { cbn. unfold size_max. lia. }
  split; [exact scenario_bst|]. split; [exact H|].
  exact (insert_size string scenario_tree false 10 20 "hello"%string scenario_bst H).
Defined.

(** C6 as stated fails: a strict insert under a present key does not store
    the value. *)
Lemma roundtrip_counterexample :
  exists res T',
    insert 2 singleton_tree 1 "x"%string = Some (res, T')
    /\ find T' 1 = Some "a"%string
    /\ find T' 1 <> Some "x"%string.
Proof.
  exists Failed, singleton_tree. repeat split. cbn. discriminate.
Qed.

(** C6 as amended, at the test scenario and key 4. *)
Lemma roundtrip_witness :
  inv_bst (m_root scenario_tree)
  /\ (exists res T',
        insert_or_update 10 scenario_tree 4 "x"%string = Some (res, T')
        /\ find T' 4 = Some "x"%string)
  /\ (exists res T',
        insert 10 scenario_tree 4 "x"%string = Some (res, T')
        /\ res = Failed /\ find T' 4 = Some "g"%string)
  /\ (exists res T',
        remove scenario_tree 4 = Some (res, T') /\ find T' 4 = None).
Proof.
  destruct (roundtrip string scenario_tree 10 4 "x"%string scenario_bst)
    as (A & (res & T' & E & _ & F) & C).
  split; [exact scenario_bst|]. split; [exact A|]. split; [|exact C].
  exists res, T'. split; [exact E|].
  destruct F as (F1 & F2); [cbn; tauto|]. split; [exact F1|]. rewrite F2. reflexivity.
Defined.

(** C3 at the test scenario: key 8 sits at address 1 with the children 7 and
    13; its predecessor, key 7, sits at address 8. *)
Lemma remove_two_children_witness :
  inv_bst (m_root scenario_tree)
  /\ subtree
       (Node 1 Black 8 "a"%string (Some 5%nat)
          (Node 8 Black 7 "h"%string (Some 1%nat) Leaf Leaf)
          (Node 9 Black 13 "i"%string (Some 1%nat)
             (Node 3 Red 10 "c"%string (Some 9%nat) Leaf Leaf)
             (Node 6 Red 14 "f"%string (Some 9%nat) Leaf Leaf)))
       (m_root scenario_tree)
  /\ 0 < m_size scenario_tree < size_max
  /\ exists T',
      remove scenario_tree 8 = Some (Some "a"%string, T')
      /\ find scenario_tree 8 = Some "a"%string
      /\ m_size T' = 8
      /\ exists pre post,
          elements (m_root scenario_tree)
          = pre ++ (8%nat, 7, "h"%string) :: (1%nat, 8, "a"%string) :: post
          /\ elements (m_root T') = pre ++ (1%nat, 7, "h"%string) :: post.
Proof.
  assert (S : subtree
                (Node 1 Black 8 "a"%string (Some 5%nat)
                   (Node 8 Black 7 "h"%string (Some 1%nat) Leaf Leaf)
                   (Node 9 Black 13 "i"%string (Some 1%nat)
                      (Node 3 Red 10 "c"%string (Some 9%nat) Leaf Leaf)
                      (Node 6 Red 14 "f"%string (Some 9%nat) Leaf Leaf)))
                (m_root scenario_tree)).
  { apply sub_right, sub_here. }
  assert (H : 0 < m_size scenario_tree < size_max).
  { cbn. unfold size_max. lia. }
  split; [exact scenario_bst|]. split; [exact S|]. split; [exact H|].
  destruct (remove_two_children string scenario_tree _ _ _ _ _ _ _
              scenario_bst S eq_refl eq_refl H)
    as (pa & pc & pk & pv & pp & pl & F & _ & T' & E1 & E2 & E3 & pre & post & E4 & E5).
  cbn in F. injection F as <- <- <- <- <- <-.
  exists T'. split; [exact E1|]. split; [exact E2|]. split; [exact E3|].
  exists pre, post. split; [exact E4|exact E5].
Defined.

(** C9 at the test scenario, from the node of the maximum key 14 (address
    6): advancing reaches the end, retreating comes back. *)
Lemma iterator_symmetry_witness :
  inv_bst (m_root scenario_tree)
  /\ inv_parents (m_root scenario_tree)
  /\ NoDup (addrs (m_root scenario_tree))
  /\ (count (m_root scenario_tree) <= 9)%nat
  /\ In 6%nat (addrs (m_root scenario_tree))
  /\ (exists next,
        iter_incr 9 scenario_tree (Some 6%nat) = Some next
        /\ iter_decr 9 scenario_tree next = Some (Some 6%nat))
  /\ (exists m km vm,
        iter_decr 9 scenario_tree (end_ scenario_tree) = Some (Some m)
        /\ In (m, km, vm) (elements (m_root scenario_tree))
        /\ forall k, In k (keys (m_root scenario_tree)) -> k <= km).
Proof.
  assert (Hc : (count (m_root scenario_tree) <= 9)%nat) by (cbn; lia).
  assert (Hi : In 6%nat (addrs (m_root scenario_tree))) by (cbn; tauto).
  split; [exact scenario_bst|]. split; [exact scenario_parents|].
  split; [exact scenario_NoDup|]. split; [exact Hc|]. split; [exact Hi|].
  exact (iterator_symmetry string scenario_tree 9 6
           scenario_bst scenario_parents scenario_NoDup Hc Hi).
Defined.

(** C8 at the test scenario. *)
Lemma inorder_ascending_and_stop_witness :
  forallb (@is_insertion string) scenario_ops = true
  /\ exists T,
      run scenario_ops (empty_tree string) = Some T
      /\ keys (m_root T) = [1; 3; 4; 6; 7; 8; 10; 13; 14]
      /\ StronglySorted Z.lt (keys (m_root T)).
Proof.
  split; [reflexivity|].
  destruct (inorder_ascending_and_stop string scenario_ops eq_refl)
    as (T & E & S & _).
  exists T. split; [exact E|]. split; [|exact S].
  cbn in E. injection E as <-. reflexivity.
Defined.

(** C2 as stated fails: [validate] passes a tree with a red root, and a tree
    in which key 7 lies in the left subtree of key 5. *)
Lemma validate_counterexample :
  (validate red_root_tree = true /\ ~ inv_root_black (m_root red_root_tree))
  /\ (validate unordered_tree = true /\ ~ inv_bst (m_root unordered_tree)).
Proof.
  split; split; try reflexivity.
  - cbn. discriminate.
  - cbn. intros (H & _). inversion H; subst. inversion H3; subst. lia.
Qed.

(** C1 fails on the code.  After the insertion of the keys 0 to 5 the
    container satisfies every invariant; [remove 0] then returns a container
    in which the paths below key 3 do not count the same number of black
    nodes, and [validate] fails on it. *)
Theorem remove_breaks_black_height :
  run ascending_ops (empty_tree string) = Some ascending_tree
  /\ all_invariants ascending_tree
  /\ validate ascending_tree = true
  /\ remove ascending_tree 0 = Some (Some "0"%string, ascending_tree_less_0)
  /\ validate ascending_tree_less_0 = false
  /\ ~ inv_black_height (m_root ascending_tree_less_0).
Proof.
  split; [reflexivity|]. split; [|split; [reflexivity|split; [reflexivity|split; [reflexivity|]]]].
  - unfold all_invariants. split; [solve_concrete|]. split; [cbn; intuition discriminate|].
    split; [exists 2%nat; repeat constructor|]. split; [reflexivity|].
    split; [solve_concrete|reflexivity].
  - intros H.
    assert (Sp := validate_red_black_tree_spec string (m_root ascending_tree_less_0)).
    cbn in Sp. apply Sp. split; [intuition discriminate|]. split; [solve_concrete|exact H].
Qed.

(** * The further properties on concrete containers *)

Ltac reach_insert_step upd f k v :=
  match goal with
  | B : reachable ?t |- _ =>
      let r := eval vm_compute in (insert_with upd f t k v) in
      match r with
      | Some (?res, ?t') =>
          let B' := fresh "B" in
          assert (B' : reachable t')
            by (apply (@reach_insert string t upd f k v res t' B);
                [vm_compute; intuition discriminate
                |vm_compute; reflexivity
                |vm_compute; reflexivity]);
          clear B
      end
  end.

Ltac built_insert_step upd f k v :=
  match goal with
  | B : built_by_insertions ?t |- _ =>
      let r := eval vm_compute in (insert_with upd f t k v) in
      match r with
      | Some (?res, ?t') =>
          let B' := fresh "B" in
          assert (B' : built_by_insertions t')
            by (apply (@built_insert string t upd f k v res t' B);
                [vm_compute; intuition discriminate
                |vm_compute; reflexivity
                |vm_compute; reflexivity]);
          clear B
      end
  end.

Lemma scenario_built : built_by_insertions scenario_tree.
Proof.
  assert (B := built_empty string).
  built_insert_step false 1%nat 8 "a"%string.
  built_insert_step false 2%nat 3 "b"%string.
  built_insert_step false 3%nat 10 "c"%string.
  built_insert_step false 4%nat 1 "d"%string.
  built_insert_step false 5%nat 6 "e"%string.
  built_insert_step false 6%nat 14 "f"%string.
  built_insert_step false 7%nat 4 "g"%string.
  built_insert_step false 8%nat 7 "h"%string.
  built_insert_step false 9%nat 13 "i"%string.
  exact B0.
Qed.

Lemma ascending_less_0_reachable : reachable ascending_tree_less_0.
Proof.
  assert (B := reach_empty string).
  reach_insert_step false 1%nat 0 "0"%string.
  reach_insert_step false 2%nat 1 "1"%string.
  reach_insert_step false 3%nat 2 "2"%string.
  reach_insert_step false 4%nat 3 "3"%string.
  reach_insert_step false 5%nat 4 "4"%string.
  reach_insert_step false 6%nat 5 "5"%string.
  match goal with B : reachable ?t |- _ =>
    apply (@reach_remove string t 0 (Some "0"%string) ascending_tree_less_0 B) end.
  vm_compute. reflexivity.
Qed.

Lemma scenario_invariants : all_invariants scenario_tree.
Proof.
  unfold all_invariants. split; [exact scenario_bst|].
  split; [cbn; intuition discriminate|].
  split; [exists 3%nat; repeat constructor|].
  split; [reflexivity|]. split; [exact scenario_parents|reflexivity].
Qed.

(** X3 on the red-red configuration. *)
Lemma insert_rebalance_never_fails_witness :
  is_null red_red_tree = false
  /\ exists t',
      insert_rebalance red_red_tree DIR_LEFT = Some t'
      /\ elements t' = elements red_red_tree.
Proof.
  split; [reflexivity|].
  destruct (insert_rebalance_never_fails string red_red_tree DIR_LEFT eq_refl)
    as (t' & E & _ & El & _).
  exists t'. split; [exact E|exact El].
Defined.

(** X4 on the deficit configuration. *)
Lemma remove_rebalance_never_fails_witness :
  is_null deficit_tree = false
  /\ exists t' d,
      remove_rebalance deficit_tree DIR_LEFT = Some (t', d)
      /\ elements t' = elements deficit_tree.
Proof.
  split; [reflexivity|].
  destruct (remove_rebalance_never_fails string deficit_tree DIR_LEFT eq_refl)
    as (t' & d & E & _ & El & _).
  exists t', d. split; [exact E|exact El].
Defined.

(** X6 on the deficit configuration: a single rotation resolves the
    deficit. *)
Lemma remove_rebalance_black_sibling_witness :
  exists t' d,
    remove_rebalance deficit_tree DIR_LEFT = Some (t', d)
    /\ inv_red t' /\ has_bh t' 2%nat /\ d = true.
Proof.
  assert (H0 : has_bh (@Leaf string) 0) by constructor.
  assert (H1 : has_bh (Node 2 Black 8 "b"%string (Some 1%nat) Leaf
                         (Node 3 Red 9 "c"%string (Some 2%nat) Leaf Leaf)) 1)
    by (repeat constructor).
  assert (R1 : inv_red (Node 2 Black 8 "b"%string (Some 1%nat) Leaf
                          (Node 3 Red 9 "c"%string (Some 2%nat) Leaf Leaf)))
    by (cbn; intuition discriminate).
  destruct (remove_rebalance_black_sibling string 1%nat Black 5 "a"%string None
              Leaf _ DIR_LEFT 0%nat H0 H1 eq_refl I R1)
    as (t' & d & E & R & H & _).
  exists t', d. split; [exact E|]. split; [exact R|].
  unfold deficit_tree in E |- *. cbn in E. injection E as <- <-.
  split; [repeat constructor|reflexivity].
Defined.

(** X7 on a black node with a red child. *)
Lemma remove_node_with_one_child_witness :
  exists t',
    try_remove_key one_child_tree false 5 9
    = Some (t', true, Some "a"%string, 8, 0%nat)
    /\ get_parent t' = Some (Some 7%nat) /\ has_bh t' 1%nat.
Proof.
  assert (H : has_bh one_child_tree 1) by (repeat constructor).
  assert (R : inv_red one_child_tree) by (cbn; intuition discriminate).
  destruct (remove_node_with_one_child string 1%nat Black 5 "a"%string
              (Some 7%nat) (Node 2 Red 3 "b"%string (Some 1%nat) Leaf Leaf) Leaf
              1%nat false 9 eq_refl H R)
    as (t' & E & _ & P & _ & B & _).
  exists t'. split; [exact E|]. split.
  - apply P. cbn in E. injection E as <-. reflexivity.
  - apply B. reflexivity.
Defined.

(** X8 at the test scenario. *)
Lemma find_iff_binding_witness :
  inv_bst (m_root scenario_tree)
  /\ (find scenario_tree 13 = Some "i"%string
      <-> In (13, "i"%string) (kvs (m_root scenario_tree)))
  /\ (find scenario_tree 42 = None
      <-> ~ In 42 (keys (m_root scenario_tree))).
Proof.
  split; [exact scenario_bst|]. split.
  - exact (proj1 (find_iff_binding string scenario_tree 13 "i"%string scenario_bst)).
  - exact (proj2 (find_iff_binding string scenario_tree 42 "i"%string scenario_bst)).
Defined.

(** X9 at the test scenario: inserting key 20 leaves key 8 alone. *)
Lemma insert_keeps_other_keys_witness :
  inv_bst (m_root scenario_tree) /\ 8 <> 20
  /\ exists res T',
      insert_with true 10 scenario_tree 20 "hello"%string = Some (res, T')
      /\ find T' 8 = find scenario_tree 8.
Proof.
  assert (H : 8 <> 20) by discriminate.
  split; [exact scenario_bst|]. split; [exact H|].
  exact (insert_keeps_other_keys string scenario_tree true 10 20 "hello"%string 8
           scenario_bst H).
Defined.

(** X10 at the test scenario: removing key 8. *)
Lemma remove_returns_binding_witness :
  inv_bst (m_root scenario_tree)
  /\ exists T',
      remove scenario_tree 8 = Some (Some "a"%string, T')
      /\ keys (m_root T') = [1; 3; 4; 6; 7; 10; 13; 14]
      /\ m_size T' = 8.
Proof.
  split; [exact scenario_bst|].
  destruct (remove_returns_binding string scenario_tree 8 scenario_bst)
    as (T' & E & Kv & _ & Sz).
  exists T'. split; [exact E|]. split.
  - rewrite keys_kvs, Kv. reflexivity.
  - rewrite Sz. reflexivity.
Defined.

(** X11 at the test scenario with the absent key 20. *)
Lemma insert_then_remove_witness :
  inv_bst (m_root scenario_tree)
  /\ ~ In 20 (keys (m_root scenario_tree))
  /\ 0 <= m_size scenario_tree < size_max - 1
  /\ exists T1 T2,
      insert 10 scenario_tree 20 "hello"%string = Some (Inserted, T1)
      /\ remove T1 20 = Some (Some "hello"%string, T2)
      /\ kvs (m_root T2) = kvs (m_root scenario_tree)
      /\ m_size T2 = m_size scenario_tree.
Proof.
  assert (N : ~ In 20 (keys (m_root scenario_tree))) by (cbn; intuition discriminate).
  assert (H : 0 <= m_size scenario_tree < size_max - 1)
    by (cbn; unfold size_max; lia).
  split; [exact scenario_bst|]. split; [exact N|]. split; [exact H|].
  exact (insert_then_remove string scenario_tree 10 20 "hello"%string
           scenario_bst N H).
Defined.

(** X14 at the test scenario: the loop of the test prints the nine keys in
    ascending order. *)
Lemma range_for_inorder_witness :
  inv_parents (m_root scenario_tree)
  /\ NoDup (addrs (m_root scenario_tree))
  /\ range_for 10 9 scenario_tree (begin_ scenario_tree) []
     = Some [(1, "d"%string); (3, "b"%string); (4, "g"%string);
             (6, "e"%string); (7, "h"%string); (8, "a"%string);
             (10, "c"%string); (13, "i"%string); (14, "f"%string)].
Proof.
  split; [exact scenario_parents|]. split; [exact scenario_NoDup|].
  assert (H1 : (count (m_root scenario_tree) <= 9)%nat) by (cbn; lia).
  assert (H2 : (count (m_root scenario_tree) < 10)%nat) by (cbn; lia).
  rewrite (range_for_inorder string scenario_tree 10 9
             scenario_parents scenario_NoDup H1 H2).
  reflexivity.
Defined.

(** X15 at the test scenario: from the first node (key 1, address 4) and
    from the root (key 6, address 5). *)
Lemma iterator_retreat_advance_witness :
  iter_decr 9 scenario_tree (Some 4%nat) = Some None
  /\ exists b,
      iter_decr 9 scenario_tree (Some 5%nat) = Some (Some b)
      /\ iter_incr 9 scenario_tree (Some b) = Some (Some 5%nat).
Proof.
  assert (Hc : (count (m_root scenario_tree) <= 9)%nat) by (cbn; lia).
  assert (H4 : In 4%nat (addrs (m_root scenario_tree))) by (cbn; tauto).
  assert (H5 : In 5%nat (addrs (m_root scenario_tree))) by (cbn; tauto).
  split.
  - destruct (iterator_retreat_advance string scenario_tree 9 4
                scenario_parents scenario_NoDup Hc H4) as (prev & E & B & _).
    eapply eq_trans; [exact E|]. f_equal. apply B. reflexivity.
  - destruct (iterator_retreat_advance string scenario_tree 9 5
                scenario_parents scenario_NoDup Hc H5) as (prev & E & _ & A).
    destruct prev as [b|]; [|cbn in E; discriminate E].
    exists b. split; [exact E|]. apply A. reflexivity.
Defined.

(** X16 at the test scenario: [begin()] is at key 1. *)
Lemma begin_is_minimum_witness :
  begin_ scenario_tree = Some 4%nat
  /\ iter_deref scenario_tree (begin_ scenario_tree) = Some (1, "d"%string)
  /\ forall k', In k' (keys (m_root scenario_tree)) -> 1 <= k'.
Proof.
  destruct (begin_is_minimum string scenario_tree
              scenario_bst scenario_NoDup eq_refl)
    as (a & c & k & v & p & r & F & Eb & Ed & _ & M).
  cbn in F. injection F as <- <- <- <- <- <-.
  split; [exact Eb|]. split; [exact Ed|exact M].
Defined.

(** X17 at the test scenario. *)
Lemma insertions_validate_witness :
  built_by_insertions scenario_tree
  /\ all_invariants scenario_tree /\ validate scenario_tree = true.
Proof.
  split; [exact scenario_built|].
  destruct (insertions_validate string scenario_tree scenario_built) as (I & _ & Vd).
  split; [exact I|exact Vd].
Defined.

(** X18 on the container that the removal of key 0 leaves: it is
    reachable, and [validate()] fails on it because of the black heights
    alone. *)
Lemma reachable_validate_witness :
  reachable ascending_tree_less_0
  /\ (validate ascending_tree_less_0 = true
      <-> inv_red (m_root ascending_tree_less_0)
          /\ inv_black_height (m_root ascending_tree_less_0)).
Proof.
  split; [exact ascending_less_0_reachable|].
  exact (reachable_validate string ascending_tree_less_0 ascending_less_0_reachable).
Defined.

(** X19 on the red-red configuration: a single rotation repairs it. *)
Lemma insert_rebalance_repairs_witness :
  exists t',
    insert_rebalance red_red_tree DIR_LEFT = Some t'
    /\ inv_red t' /\ has_bh t' 1%nat.
Proof.
  assert (H : has_bh red_red_tree 1) by (repeat constructor).
  assert (R : infrared (Node 2 Red 3 "b"%string (Some 1%nat)
                          (Node 3 Red 1 "c"%string (Some 2%nat) Leaf Leaf) Leaf)).
  { cbn. intuition discriminate. }
  exact (insert_rebalance_repairs string 1%nat 5 "a"%string None _ Leaf DIR_LEFT
           1%nat I (or_intror R) H).
Defined.

(** X20 at the test scenario: one more insertion. *)
Lemma insert_preserves_invariants_witness :
  all_invariants scenario_tree
  /\ ~ In 10%nat (addrs (m_root scenario_tree))
  /\ exists res T',
      insert_with false 10 scenario_tree 5 "j"%string = Some (res, T')
      /\ all_invariants T'.
Proof.
  assert (Hf : ~ In 10%nat (addrs (m_root scenario_tree)))
    by (cbn; intuition discriminate).
  assert (Hs : m_size scenario_tree < size_max - 1) by (cbn; unfold size_max; lia).
  split; [exact scenario_invariants|]. split; [exact Hf|].
  destruct (insert_preserves_invariants string scenario_tree false 10 5 "j"%string
              scenario_invariants scenario_NoDup Hf Hs)
    as (res & T' & E & I & _).
  exists res, T'. split; [exact E|exact I].
Defined.

(** X21 on the container that the removal of key 0 leaves. *)
Lemma reachable_wf_witness :
  reachable ascending_tree_less_0
  /\ inv_bst (m_root ascending_tree_less_0)
  /\ inv_parents (m_root ascending_tree_less_0)
  /\ NoDup (addrs (m_root ascending_tree_less_0))
  /\ inv_size ascending_tree_less_0.
Proof.
  split; [exact ascending_less_0_reachable|].
  destruct (reachable_wf string ascending_tree_less_0 ascending_less_0_reachable)
    as (B & P & N & Sz & _).
  auto.
Defined.
